(** * worldbuilding-mvp: the document ledger, the entity categories and the
      paragraph chunker

    A shallow embedding of

    - [src/worldbuild/domain/entities.py] and [src/resonance/domain/entities.py]
      (the [EntityType] enumerations, [WorldEntity], [Relation]),
    - [src/worldbuild/domain/ledger.py] ([DocumentLedger]),
    - [src/resonance/infrastructure/services/chunkers.py]
      ([SimpleParagraphChunker]),

    followed by the properties the specification states about them.

    Conventions.  A Python [str] is a [string] whose characters are read as
    code points below 256; a Python [int] is a [Z]; [Optional[T]] is
    [option T]; a [Dict[str, Optional[str]]] is a [gmap]; the
    [OrderedDict] of the ledger is an insertion-ordered association list,
    because [_lookup] scans its values in order. *)

From Stdlib Require Import ZArith NArith Ascii String List.
From stdpp Require Import base option list gmap strings.

Local Open Scope string_scope.
Local Open Scope list_scope.

(* ===================================================================== *)
(** ** Python string primitives used by the sources *)
(* ===================================================================== *)

Module PyStr.

(** [c.isspace()] for a code point below 256: TAB..CR, FS..US, SPACE,
    NEL and NBSP. *)
Definition isspace (c : ascii) : bool :=
  let n := N_of_ascii c in
  ((9 <=? n) && (n <=? 13) || (28 <=? n) && (n <=? 32)
   || (n =? 133) || (n =? 160))%N.

(** [c.lower()] for a code point below 256: A..Z and the capital letters
    of the Latin-1 block (U+00C0..U+00DE without the multiplication sign
    U+00D7) move up by 32; every other code point is its own lower case. *)
Definition lower_char (c : ascii) : ascii :=
  let n := N_of_ascii c in
  if ((65 <=? n) && (n <=? 90)
      || (192 <=? n) && (n <=? 222) && negb (n =? 215))%N
  then ascii_of_N (n + 32) else c.

(** [s.lower()] *)
Fixpoint lower (s : string) : string :=
  match s with
  | EmptyString => EmptyString
  | String c s' => String (lower_char c) (lower s')
  end.

(** [s.lstrip()] *)
Fixpoint lstrip (s : string) : string :=
  match s with
  | EmptyString => EmptyString
  | String c s' => if isspace c then lstrip s' else s
  end.

(** [s.rstrip()]: a character is dropped when it is white space and
    everything after it has been dropped. *)
Fixpoint rstrip (s : string) : string :=
  match s with
  | EmptyString => EmptyString
  | String c s' =>
      match rstrip s' with
      | EmptyString => if isspace c then EmptyString else String c EmptyString
      | r => String c r
      end
  end.

(** [s.strip()] *)
Definition strip (s : string) : string := rstrip (lstrip s).

(** Truth value of a string in a condition ([if s:]): non-empty. *)
Definition truthy (s : string) : bool :=
  match s with EmptyString => false | String _ _ => true end.

(** [len(s)] *)
Definition len (s : string) : Z := Z.of_nat (String.length s).

Definition LF : ascii := ascii_of_N 10.

(** The loop of [s.split("\n\n")]: [cur] is the piece being read, kept in
    reverse; the separator is searched left to right, without overlap. *)
Fixpoint split_blank_go (cur : string) (s : string) : list string :=
  match s with
  | EmptyString => [String.rev cur]
  | String c s' =>
      match s' with
      | String c' s'' =>
          if Ascii.eqb c LF && Ascii.eqb c' LF
          then String.rev cur :: split_blank_go EmptyString s''
          else split_blank_go (String c cur) s'
      | EmptyString => split_blank_go (String c cur) s'
      end
  end.

(** [s.split("\n\n")] *)
Definition split_blank (s : string) : list string :=
  split_blank_go EmptyString s.

(** ["".join(parts)] *)
Definition join (parts : list string) : string :=
  fold_right String.append EmptyString parts.

End PyStr.

(* ===================================================================== *)
(** ** Domain models ([entities.py]) *)
(* ===================================================================== *)

(** [resonance/domain/entities.py]: [class EntityType(str, Enum)] with seven
    members. *)
Module Resonance.

Inductive EntityType : Type :=
| CHARACTER | LOCATION | ORGANIZATION | ITEM | FACTION | EVENT | CONCEPT.

(** The member's [value]. *)
Definition value (t : EntityType) : string :=
  match t with
  | CHARACTER => "character"
  | LOCATION => "location"
  | ORGANIZATION => "organization"
  | ITEM => "item"
  | FACTION => "faction"
  | EVENT => "event"
  | CONCEPT => "concept"
  end.

(** The members in definition order ([list(EntityType)]). *)
Definition members : list EntityType :=
  [CHARACTER; LOCATION; ORGANIZATION; ITEM; FACTION; EVENT; CONCEPT].

(** [EntityType(s)]: lookup of a member by value; [None] stands for the
    [ValueError] of the enumeration. *)
Definition of_value (s : string) : option EntityType :=
  List.find (fun t => String.eqb (value t) s) members.

End Resonance.

(** [worldbuild/domain/entities.py]: the same class with four members. *)
Module Worldbuild.

Inductive EntityType : Type :=
| CHARACTER | LOCATION | ORGANIZATION | ITEM.

Definition value (t : EntityType) : string :=
  match t with
  | CHARACTER => "character"
  | LOCATION => "location"
  | ORGANIZATION => "organization"
  | ITEM => "item"
  end.

Definition members : list EntityType :=
  [CHARACTER; LOCATION; ORGANIZATION; ITEM].

Definition of_value (s : string) : option EntityType :=
  List.find (fun t => String.eqb (value t) s) members.

End Worldbuild.

(** The seven category names of the specification. *)
Definition seven_categories : list string :=
  ["character"; "location"; "organization"; "item"; "faction"; "event";
   "concept"].

(** The ledger of [src/worldbuild/domain/ledger.py] imports the models of its
    own package. *)
Import Worldbuild.

(** [class WorldEntity(BaseModel)] *)
Record WorldEntity : Type := mkWorldEntity {
  id : option Z;
  chunk_id : option Z;
  entity_type : EntityType;
  name : string;
  description : string;
  metadata : gmap string (option string)
}.

(** [class Relation(BaseModel)]; its fields [id], [description] and
    [metadata] carry the prefix [rel_], the plain names being the
    projections of [WorldEntity]. *)
Record Relation : Type := mkRelation {
  rel_id : option Z;
  predicate : string;
  subject_entity_id : option Z;
  subject_name : option string;
  object_entity_id : option Z;
  object_name : option string;
  rel_description : option string;
  rel_metadata : gmap string (option string)
}.

(** [relation.model_copy(update={"subject_entity_id": s, "object_entity_id": o})]:
    a new value with these two fields replaced and every other field taken
    from [relation]. *)
Definition model_copy_update (relation : Relation) (s o : option Z) : Relation :=
  {| rel_id := rel_id relation;
     predicate := predicate relation;
     subject_entity_id := s;
     subject_name := subject_name relation;
     object_entity_id := o;
     object_name := object_name relation;
     rel_description := rel_description relation;
     rel_metadata := rel_metadata relation |}.

(* ===================================================================== *)
(** ** [collections.OrderedDict], as far as the ledger uses it *)
(* ===================================================================== *)

Module OrderedDict.
Section ops.
Context {V : Type}.

(** Entries in insertion order. *)
Definition t : Type := list (string * V).

Definition empty : t := [].

(** [d.get(k)] *)
Fixpoint get (k : string) (d : t) : option V :=
  match d with
  | [] => None
  | (k', v) :: d' => if String.eqb k' k then Some v else get k d'
  end.

(** [k in d] *)
Definition contains (k : string) (d : t) : bool :=
  match get k d with Some _ => true | None => false end.

(** [d[k] = v]: an existing key keeps its position and takes the new
    value; a new key goes to the end. *)
Fixpoint set (k : string) (v : V) (d : t) : t :=
  match d with
  | [] => [(k, v)]
  | (k', v') :: d' =>
      if String.eqb k' k then (k', v) :: d' else (k', v') :: set k v d'
  end.

(** [d.keys()] and [d.values()], in insertion order. *)
Definition keys (d : t) : list string := map fst d.
Definition values (d : t) : list V := map snd d.

End ops.
Arguments t : clear implicits.
End OrderedDict.

(* ===================================================================== *)
(** ** [class DocumentLedger] ([ledger.py]) *)
(* ===================================================================== *)

(** The instance state: [self._entities]. *)
Record DocumentLedger : Type := mkLedger {
  _entities : OrderedDict.t WorldEntity
}.

(** [DocumentLedger()] *)
Definition new_ledger : DocumentLedger := mkLedger OrderedDict.empty.

(** [_key(name)]: [name.strip().lower()] *)
Definition _key (name : string) : string := PyStr.lower (PyStr.strip name).

(** One iteration of the loop of [register_entities]; the state of the loop
    is the ledger and the list [unique]. *)
Definition register_step (st : DocumentLedger * list WorldEntity)
    (entity : WorldEntity) : DocumentLedger * list WorldEntity :=
  let '(self, unique) := st in
  let key := _key (name entity) in
  if OrderedDict.contains key (_entities self) then (self, unique)
  else (mkLedger (OrderedDict.set key entity (_entities self)),
        unique ++ [entity]).

(** [register_entities(entities)]: the ledger after the call and the list
    returned. *)
Definition register_entities (self : DocumentLedger)
    (entities : list WorldEntity) : DocumentLedger * list WorldEntity :=
  foldl register_step (self, []) entities.

(** [update_with_stored(entities)]: the ledger after the call. *)
Definition update_with_stored (self : DocumentLedger)
    (entities : list WorldEntity) : DocumentLedger :=
  foldl (fun self entity =>
           mkLedger (OrderedDict.set (_key (name entity)) entity
                       (_entities self)))
        self entities.

(** [_lookup(entity_id, name)] *)
Definition _lookup (self : DocumentLedger) (entity_id : option Z)
    (name' : option string) : option WorldEntity :=
  match entity_id with
  | Some i =>
      List.find (fun entity => bool_decide (id entity = Some i))
                (OrderedDict.values (_entities self))
  | None =>
      match name' with
      | Some n =>
          if PyStr.truthy n then OrderedDict.get (_key n) (_entities self)
          else None
      | None => None
      end
  end.

(** The body of the loop of [resolve_relations]: the relation appended for
    [relation]. *)
Definition resolve_relation (self : DocumentLedger) (relation : Relation)
    : Relation :=
  let subject :=
    _lookup self (subject_entity_id relation) (subject_name relation) in
  let obj :=
    _lookup self (object_entity_id relation) (object_name relation) in
  model_copy_update relation
    (match subject with
     | Some s => id s
     | None => subject_entity_id relation
     end)
    (match obj with
     | Some o => id o
     | None => object_entity_id relation
     end).

(** [resolve_relations(relations)]; the ledger is only read. *)
Definition resolve_relations (self : DocumentLedger)
    (relations : list Relation) : list Relation :=
  foldl (fun resolved relation => resolved ++ [resolve_relation self relation])
        [] relations.

(** *** Sample values of the unit tests ([tests/domain/test_ledger.py]) *)

Definition make_entity (n : string) (entity_id : option Z) : WorldEntity :=
  mkWorldEntity entity_id None LOCATION n "desc" ∅.

Definition make_relation (subject obj : option string) : Relation :=
  mkRelation None "ally_of" None subject None obj None ∅.

(** *** The ledger as a state machine: one transition per public call *)

Inductive call : Type :=
| Register (entities : list WorldEntity)
| UpdateWithStored (entities : list WorldEntity)
| ResolveRelations (relations : list Relation).

Inductive returned : Type :=
| RetEntities (unique : list WorldEntity)
| RetNone
| RetRelations (resolved : list Relation).

Definition run_call (self : DocumentLedger) (c : call)
    : DocumentLedger * returned :=
  match c with
  | Register entities =>
      let '(self', unique) := register_entities self entities in
      (self', RetEntities unique)
  | UpdateWithStored entities =>
      (update_with_stored self entities, RetNone)
  | ResolveRelations relations =>
      (self, RetRelations (resolve_relations self relations))
  end.

(** The ledger after a sequence of calls. *)
Definition run_calls (self : DocumentLedger) (cs : list call)
    : DocumentLedger :=
  foldl (fun s c => (run_call s c).1) self cs.

(** *** The invariant of the ledger state *)

(** The normalized name of an entity: the key it is filed under. *)
Definition normalized_name (e : WorldEntity) : string := _key (name e).

(** Every entry is filed under the normalized name of its entity. *)
Definition keyed (d : OrderedDict.t WorldEntity) : Prop :=
  Forall (fun kv => kv.1 = normalized_name kv.2) d.

(** The state invariant: no key occurs twice and every entry is filed under
    the normalized name of its entity. *)
Definition ledger_inv (self : DocumentLedger) : Prop :=
  NoDup (OrderedDict.keys (_entities self)) /\ keyed (_entities self).

(** At most one entity per normalized name. *)
Definition one_entity_per_name (self : DocumentLedger) : Prop :=
  NoDup (map normalized_name (OrderedDict.values (_entities self))).

(** The last element of [l] whose normalized name is [k]. *)
Definition last_named (k : string) (l : list WorldEntity)
    : option WorldEntity :=
  last (List.filter (fun e => String.eqb (normalized_name e) k) l).

(** The first element of [l] whose normalized name is [k]. *)
Definition first_named (k : string) (l : list WorldEntity)
    : option WorldEntity :=
  List.find (fun e => String.eqb (normalized_name e) k) l.

(** "Last registered wins": on a new ledger, the record under the key of a
    candidate is the last candidate with that normalized name. *)
Definition last_registered_wins (entities : list WorldEntity) : Prop :=
  forall k, OrderedDict.get k
              (_entities (register_entities new_ledger entities).1)
            = last_named k entities.

(** The candidates at the positions whose normalized name occurs neither in
    [seen] nor at an earlier position of the input: [pre] holds the
    candidates already passed. *)
Fixpoint first_mentions (seen : list string) (pre : list WorldEntity)
    (entities : list WorldEntity) : list WorldEntity :=
  match entities with
  | [] => []
  | e :: rest =>
      (if bool_decide ((normalized_name e ∉ seen)
                       ∧ (normalized_name e ∉ map normalized_name pre))
       then [e] else [])
      ++ first_mentions seen (pre ++ [e]) rest
  end.

(** *** The same calls with Python's failure on [None] made explicit

    The only operations of [ledger.py] that can raise on values of the
    declared types are attribute accesses on an [Optional] value:
    [name.strip()] with [name : Optional[str]] and [subject.id] with
    [subject : Optional[WorldEntity]]. *)

Inductive exn : Type := AttributeError.

Inductive result (A : Type) : Type :=
| Ok (a : A)
| Raise (e : exn).
Arguments Ok {A} a.
Arguments Raise {A} e.

#[local] Instance result_bind : MBind result :=
  fun A B f m => match m with Ok a => f a | Raise e => Raise e end.

(** [_key(name)] applied to an [Optional[str]]: [None] has no [strip]. *)
Definition _key_exn (name' : option string) : result string :=
  match name' with
  | Some n => Ok (_key n)
  | None => Raise AttributeError
  end.

(** [e.id] applied to an [Optional[WorldEntity]]. *)
Definition id_exn (e : option WorldEntity) : result (option Z) :=
  match e with
  | Some e => Ok (id e)
  | None => Raise AttributeError
  end.

(** [if x:] on an optional string / an optional model instance. *)
Definition truthy_name (name' : option string) : bool :=
  match name' with Some n => PyStr.truthy n | None => false end.
Definition truthy_entity (e : option WorldEntity) : bool :=
  match e with Some _ => true | None => false end.

Definition _lookup_exn (self : DocumentLedger) (entity_id : option Z)
    (name' : option string) : result (option WorldEntity) :=
  match entity_id with
  | Some i =>
      Ok (List.find (fun entity => bool_decide (id entity = Some i))
                    (OrderedDict.values (_entities self)))
  | None =>
      if truthy_name name'
      then key ← _key_exn name'; Ok (OrderedDict.get key (_entities self))
      else Ok None
  end.

Definition resolve_relation_exn (self : DocumentLedger) (relation : Relation)
    : result Relation :=
  subject ← _lookup_exn self (subject_entity_id relation)
                        (subject_name relation);
  obj ← _lookup_exn self (object_entity_id relation) (object_name relation);
  s ← (if truthy_entity subject then id_exn subject
       else Ok (subject_entity_id relation));
  o ← (if truthy_entity obj then id_exn obj
       else Ok (object_entity_id relation));
  Ok (model_copy_update relation s o).

Definition resolve_relations_exn (self : DocumentLedger)
    (relations : list Relation) : result (list Relation) :=
  foldl (fun acc relation =>
           resolved ← acc;
           r ← resolve_relation_exn self relation;
           Ok (resolved ++ [r]))
        (Ok []) relations.

(** *** Relations as objects of a store

    [resolve_relations] receives references to relation objects and returns
    references to the objects [model_copy] creates.  The store maps the
    references of the live objects to their current values. *)

Module Store.

Definition loc : Type := positive.

(** A new object holding [r]. *)
Definition alloc (h : gmap loc Relation) (r : Relation)
    : gmap loc Relation * loc :=
  let p := fresh (dom h) in (<[p := r]> h, p).

(** The loop of [resolve_relations] over references; [resolved] is the list
    built so far.  [None] stands for a reference to no object, which a
    Python program cannot hold. *)
Fixpoint resolve_loop (self : DocumentLedger) (h : gmap loc Relation)
    (relations : list loc) (resolved : list loc)
    : option (gmap loc Relation * list loc) :=
  match relations with
  | [] => Some (h, resolved)
  | p :: rest =>
      match h !! p with
      | None => None
      | Some relation =>
          let '(h', q) := alloc h (resolve_relation self relation) in
          resolve_loop self h' rest (resolved ++ [q])
      end
  end.

Definition resolve_relations (self : DocumentLedger)
    (h : gmap loc Relation) (relations : list loc)
    : option (gmap loc Relation * list loc) :=
  resolve_loop self h relations [].

End Store.

(* ===================================================================== *)
(** ** [class SimpleParagraphChunker] ([chunkers.py]) *)
(* ===================================================================== *)

Module Chunker.
Section chunker.

(** [textwrap.wrap(text, width)] of Python's standard library, which is
    defined for a positive [width] (it raises [ValueError] otherwise); the
    command line interfaces build the chunker with the default limit 800. *)
Variable wrap : string -> Z -> list string.

(** [self._max_chars] *)
Variable max_chars : Z.

(** [[p.strip() for p in text.split("\n\n") if p.strip()]] *)
Definition paragraphs (text : string) : list string :=
  map PyStr.strip
    (List.filter (fun p => PyStr.truthy (PyStr.strip p))
                 (PyStr.split_blank text)).

(** The body of the loop over the paragraphs. *)
Definition chunk_step (chunks : list string) (paragraph : string)
    : list string :=
  if (PyStr.len paragraph <=? max_chars)%Z
  then chunks ++ [paragraph]
  else chunks ++ wrap paragraph max_chars.

(** [chunk(text)] *)
Definition chunk (text : string) : list string :=
  let chunks := foldl chunk_step [] (paragraphs text) in
  match chunks with
  | [] => [text]
  | _ :: _ => chunks
  end.

End chunker.

(** The characters of [s] that are not white space, in order. *)
Fixpoint nonspace (s : string) : string :=
  match s with
  | EmptyString => EmptyString
  | String c s' =>
      if PyStr.isspace c then nonspace s' else String c (nonspace s')
  end.



(** A string of white space only. *)
Definition blank (s : string) : Prop := nonspace s = EmptyString.

End Chunker.

(* ===================================================================== *)
(** ** [class HeuristicExtractor] ([extractors.py]): [_split_body] *)
(* ===================================================================== *)

Module Extractor.

(** [c in s] for a string [c] of one character. *)
Fixpoint contains_char (c : ascii) (s : string) : bool :=
  match s with
  | EmptyString => false
  | String a s' => Ascii.eqb a c || contains_char c s'
  end.

(** [s.partition(c)] for a separator of one character: the text before its
    first occurrence, the separator, the text after it; when the separator
    does not occur, [s] and two empty strings. *)
Fixpoint partition (c : ascii) (s : string) : string * string * string :=
  match s with
  | EmptyString => (EmptyString, EmptyString, EmptyString)
  | String a s' =>
      if Ascii.eqb a c then (EmptyString, String c EmptyString, s')
      else let '(before, sep, after) := partition c s' in
           (String a before, sep, after)
  end.

(** [s.split(" ", 1)] *)
Definition split_space_once (s : string) : list string :=
  let '(before, sep, after) := partition " " s in
  match sep with
  | EmptyString => [s]
  | String _ _ => [before; after]
  end.

Definition no_description : string := "No description provided.".

(** [x or d] on strings *)
Definition or_else (x d : string) : string :=
  if PyStr.truthy x then x else d.

(** [_split_body(body)]: the name and the description *)
Definition _split_body (body : string) : string * string :=
  if contains_char "-" body then
    let '(name, _, desc) := partition "-" body in
    (PyStr.strip name, or_else (PyStr.strip desc) no_description)
  else if contains_char ":" body then
    let '(name, _, desc) := partition ":" body in
    (PyStr.strip name, or_else (PyStr.strip desc) no_description)
  else
    match split_space_once body with
    | [name; desc] =>
        (PyStr.strip name, or_else (PyStr.strip desc) no_description)
    | _ => (PyStr.strip body, no_description)
    end.

End Extractor.

(* ===================================================================== *)
(** ** [class OpenRouterExtractionService] ([openrouter_extractor.py]):
       [_parse_entity_type] *)
(* ===================================================================== *)

Module OpenRouter.

(** The dictionary [fallback_map]. *)
Definition fallback_map : OrderedDict.t Resonance.EntityType :=
  [("npc", Resonance.CHARACTER); ("organization", Resonance.ORGANIZATION)].

(** [_parse_entity_type(value)]: [EntityType(value)], and on its
    [ValueError] the entry of [fallback_map], [CONCEPT] by default. *)
Definition _parse_entity_type (value : string) : Resonance.EntityType :=
  match Resonance.of_value value with
  | Some t => t
  | None =>
      match OrderedDict.get value fallback_map with
      | Some t => t
      | None => Resonance.CONCEPT
      end
  end.

End OpenRouter.

(* ===================================================================== *)
(** ** The other models of [worldbuild/domain/entities.py] *)
(* ===================================================================== *)

(** [class Document(BaseModel)]; [Path] stands for [pathlib.Path] and
    [DateTime] for [datetime]. *)
Record Document {Path DateTime : Type} : Type := mkDocument {
  doc_id : option Z;
  doc_path : Path;
  doc_title : string;
  doc_content : string;
  doc_metadata : gmap string (option string);
  doc_ingested_at : DateTime
}.
Arguments Document : clear implicits.
Arguments mkDocument {Path DateTime}.

(** [class DocumentChunk(BaseModel)] *)
Record DocumentChunk : Type := mkDocumentChunk {
  ck_id : option Z;
  ck_document_id : option Z;
  chunk_index : Z;
  ck_text : string;
  ck_metadata : gmap string (option string)
}.

(** [class DocumentWithChunks(BaseModel)] *)
Record DocumentWithChunks {Path DateTime : Type} : Type :=
  mkDocumentWithChunks {
    document : Document Path DateTime;
    chunks : list DocumentChunk
  }.
Arguments DocumentWithChunks : clear implicits.
Arguments mkDocumentWithChunks {Path DateTime}.

(** [entity.model_copy(update={"id": entity_id})] *)
Definition entity_with_id (entity : WorldEntity) (entity_id : Z)
    : WorldEntity :=
  {| id := Some entity_id;
     chunk_id := chunk_id entity;
     entity_type := entity_type entity;
     name := name entity;
     description := description entity;
     metadata := metadata entity |}.

(** [relation.model_copy(update={"id": relation_id})] *)
Definition relation_with_id (relation : Relation) (relation_id : Z)
    : Relation :=
  {| rel_id := Some relation_id;
     predicate := predicate relation;
     subject_entity_id := subject_entity_id relation;
     subject_name := subject_name relation;
     object_entity_id := object_entity_id relation;
     object_name := object_name relation;
     rel_description := rel_description relation;
     rel_metadata := rel_metadata relation |}.

(** [document.model_copy(update={"id": document_id})] *)
Definition document_with_id {Path DateTime : Type}
    (d : Document Path DateTime) (document_id : Z) : Document Path DateTime :=
  {| doc_id := Some document_id;
     doc_path := doc_path d;
     doc_title := doc_title d;
     doc_content := doc_content d;
     doc_metadata := doc_metadata d;
     doc_ingested_at := doc_ingested_at d |}.

(* ===================================================================== *)
(** ** Calls with effects

    The repository, the extractor, the embedding service and the file
    system act on a world outside the program.  A call is a function of
    the world that gives a value and the world after the call, or nothing
    when the call raises; an exception of a call is not caught by any of
    the functions below, so it ends the caller as well. *)
(* ===================================================================== *)

Section effects.
Context {World : Type}.

Definition io (A : Type) : Type := World -> option (A * World).

#[export] Instance io_ret : MRet io := fun A a w => Some (a, w).

#[export] Instance io_bind : MBind io :=
  fun A B f m w =>
    match m w with
    | Some (a, w') => f a w'
    | None => None
    end.

End effects.
Arguments io : clear implicits.

(* ===================================================================== *)
(** ** [class SQLAlchemyDocumentRepository] ([sqlite_repository.py]) *)
(* ===================================================================== *)

Module Repository.

(** The values of an [insert] into each table. *)
Record document_row {DateTime : Type} : Type := mkDocumentRow {
  dr_path : string;
  dr_title : string;
  dr_content : string;
  dr_metadata : string;
  dr_ingested_at : DateTime
}.
Arguments document_row : clear implicits.
Arguments mkDocumentRow {DateTime}.

Record chunk_row : Type := mkChunkRow {
  cr_document_id : Z;
  cr_chunk_index : Z;
  cr_text : string;
  cr_metadata : string
}.

Record entity_row : Type := mkEntityRow {
  er_chunk_id : option Z;
  er_entity_type : string;
  er_name : string;
  er_description : string;
  er_metadata : string
}.

Record relation_row : Type := mkRelationRow {
  rr_predicate : string;
  rr_subject_entity_id : option Z;
  rr_subject_name : option string;
  rr_object_entity_id : option Z;
  rr_object_name : option string;
  rr_description : option string;
  rr_metadata : string
}.

Section repository.
Context {World Path DateTime : Type}.

(** [conn.execute(insert(table).values(...)).inserted_primary_key[0]] for
    each of the four tables: the database engine.  A method runs its
    inserts inside one [engine.begin()] block; opening, committing and
    rolling back the transaction are the engine's and belong to what the
    inserts do to the world.  [x.metadata or {}] is [x.metadata], the empty
    dictionary being the only one that is false. *)
Variable insert_document : document_row DateTime -> io World Z.
Variable insert_chunk : chunk_row -> io World Z.
Variable insert_entity : entity_row -> io World Z.
Variable insert_relation : relation_row -> io World Z.

(** [json.dumps] on a metadata dictionary and [str] on a path. *)
Variable json_dumps : gmap string (option string) -> string.
Variable path_str : Path -> string.

(** The loop of [save_document_with_chunks] over
    [enumerate(chunk_texts)]; [index] is the next index and
    [stored_chunks] the list built so far. *)
Fixpoint save_chunks_loop (document_id : Z) (index : Z)
    (chunk_texts : list string) (stored_chunks : list DocumentChunk)
    : io World (list DocumentChunk) :=
  match chunk_texts with
  | [] => mret stored_chunks
  | chunk_text :: rest =>
      chunk_id ← insert_chunk
                   (mkChunkRow document_id index chunk_text (json_dumps ∅));
      save_chunks_loop document_id (index + 1) rest
        (stored_chunks
           ++ [mkDocumentChunk (Some chunk_id) (Some document_id) index
                 chunk_text ∅])
  end.

(** [save_document_with_chunks(document, chunk_texts)] *)
Definition save_document_with_chunks (d : Document Path DateTime)
    (chunk_texts : list string) : io World (DocumentWithChunks Path DateTime) :=
  let doc_metadata := json_dumps (doc_metadata d) in
  document_id ← insert_document
                  (mkDocumentRow (path_str (doc_path d)) (doc_title d)
                     (doc_content d) doc_metadata (doc_ingested_at d));
  let stored_doc := document_with_id d document_id in
  stored_chunks ← save_chunks_loop document_id 0 chunk_texts [];
  mret (mkDocumentWithChunks stored_doc stored_chunks).

(** The loop of [save_entities]. *)
Fixpoint save_entities_loop (entities : list WorldEntity)
    (stored_entities : list WorldEntity) : io World (list WorldEntity) :=
  match entities with
  | [] => mret stored_entities
  | entity :: rest =>
      entity_id ← insert_entity
                    (mkEntityRow (chunk_id entity)
                       (Worldbuild.value (entity_type entity)) (name entity)
                       (description entity) (json_dumps (metadata entity)));
      save_entities_loop rest
        (stored_entities ++ [entity_with_id entity entity_id])
  end.

(** [save_entities(entities)] *)
Definition save_entities (entities : list WorldEntity)
    : io World (list WorldEntity) :=
  match entities with
  | [] => mret []
  | _ :: _ => save_entities_loop entities []
  end.

(** The loop of [save_relations]. *)
Fixpoint save_relations_loop (relations : list Relation)
    (stored_relations : list Relation) : io World (list Relation) :=
  match relations with
  | [] => mret stored_relations
  | relation :: rest =>
      relation_id ← insert_relation
                      (mkRelationRow (predicate relation)
                         (subject_entity_id relation) (subject_name relation)
                         (object_entity_id relation) (object_name relation)
                         (rel_description relation)
                         (json_dumps (rel_metadata relation)));
      save_relations_loop rest
        (stored_relations ++ [relation_with_id relation relation_id])
  end.

(** [save_relations(relations)] *)
Definition save_relations (relations : list Relation)
    : io World (list Relation) :=
  match relations with
  | [] => mret []
  | _ :: _ => save_relations_loop relations []
  end.

(** [save_chunk_embeddings(vectors)].  For an empty sequence the method
    returns at once.  Otherwise it opens [engine.begin()] and builds the
    statement of the first pair with
    [insert(...).values(...).on_conflict_do_update(...)]; [insert] is the
    generic [sqlalchemy.insert] of the imports (line 8), and its statements
    have no attribute [on_conflict_do_update] (the [insert] of the SQLite
    dialect has it, which the module does not import; the line carries
    [type: ignore[attr-defined]]).  So building the statement raises
    [AttributeError] before anything is executed, and the exception leaves
    the method. *)
Definition save_chunk_embeddings {Vector : Type}
    (vectors : list (Z * Vector)) : io World unit :=
  match vectors with
  | [] => mret tt
  | _ :: _ => fun _ => None
  end.

(** [save_entity_embeddings(vectors)], written like
    [save_chunk_embeddings]. *)
Definition save_entity_embeddings {Vector : Type}
    (vectors : list (Z * Vector)) : io World unit :=
  match vectors with
  | [] => mret tt
  | _ :: _ => fun _ => None
  end.

End repository.
Arguments save_chunk_embeddings {World Vector}.
Arguments save_entity_embeddings {World Vector}.
End Repository.

(* ===================================================================== *)
(** ** [class IngestDocumentUseCase] ([ingest_document.py]) *)
(* ===================================================================== *)

Module Ingest.

(** The dictionary [execute] returns. *)
Record stats : Type := mkStats {
  st_chunks : nat;
  st_entities : nat;
  st_relations : nat
}.

(** [[(x.id, vector) for x, vector in zip(xs, vectors) if x.id is not None]] *)
Definition payload {A Vector : Type} (get_id : A -> option Z)
    (xs : list A) (vectors : list Vector) : list (Z * Vector) :=
  omap (fun '(x, vector) =>
          match get_id x with
          | Some i => Some (i, vector)
          | None => None
          end)
       (zip xs vectors).

Section use_case.
Context {World Path DateTime Vector : Type}.

(** [Path.read_text(encoding="utf-8")], [Path.stem], [datetime.utcnow()] *)
Variable read_text : Path -> io World string.
Variable stem : Path -> string.
Variable utcnow : io World DateTime.

(** The collaborators, as [domain/services.py] declares them. *)
Variable chunker_chunk : string -> io World (list string).
Variable repository_save_document_with_chunks :
  Document Path DateTime -> list string ->
  io World (DocumentWithChunks Path DateTime).
Variable repository_save_chunk_embeddings : list (Z * Vector) -> io World unit.
Variable repository_save_entities :
  list WorldEntity -> io World (list WorldEntity).
Variable repository_save_entity_embeddings : list (Z * Vector) -> io World unit.
Variable repository_save_relations :
  list Relation -> io World (list Relation).
Variable extractor_extract :
  Document Path DateTime -> list DocumentChunk ->
  io World (list WorldEntity * list Relation).
Variable embedding_embed : list string -> io World (list Vector).

(** [execute(path)] *)
Definition execute (path : Path) : io World stats :=
  text ← read_text path;
  now ← utcnow;
  let d := mkDocument None path (stem path) text ∅ now in
  chunk_texts ← chunker_chunk (doc_content d);
  stored ← repository_save_document_with_chunks d chunk_texts;
  chunk_vectors ← embedding_embed (map ck_text (chunks stored));
  let chunk_payload := payload ck_id (chunks stored) chunk_vectors in
  _ ← repository_save_chunk_embeddings chunk_payload;
  extracted ← extractor_extract (document stored) (chunks stored);
  let entities := extracted.1 in
  let relations := extracted.2 in
  let ledger := new_ledger in
  let registered := register_entities ledger entities in
  let ledger := registered.1 in
  let novel_entities := registered.2 in
  stored_entities ← repository_save_entities novel_entities;
  let ledger := update_with_stored ledger stored_entities in
  entity_vectors ← embedding_embed (map description stored_entities);
  let entity_payload := payload id stored_entities entity_vectors in
  _ ← repository_save_entity_embeddings entity_payload;
  let resolved_relations := resolve_relations ledger relations in
  _ ← repository_save_relations resolved_relations;
  mret (mkStats (length (chunks stored)) (length stored_entities)
          (length resolved_relations)).

End use_case.
End Ingest.

(* ===================================================================== *)
(** ** [textwrap.wrap] of Python's standard library, on plain texts

    [textwrap.wrap(text, width)] with the default options, for a text
    that holds neither a hyphen nor a tab.  On such a text [expandtabs]
    changes nothing, [wordsep_re] cuts the text into its maximal runs of
    white space and of other characters (its other alternatives all need
    a hyphen), and a long word is cut at the width. *)
(* ===================================================================== *)

Module Textwrap.

(** The characters of [textwrap._whitespace]: TAB, LF, VT, FF, CR, SPACE. *)
Definition is_ws (c : ascii) : bool :=
  let n := N_of_ascii c in
  ((9 <=? n) && (n <=? 13) || (n =? 32))%N.

(** What [wrap] does: it returns lines, it raises [ValueError], or the
    text is outside the texts described here. *)
Inductive outcome : Type :=
| Lines (lines : list string)
| ValueError
| NotModelled.

(** [_munge_whitespace]: every white space character becomes a space. *)
Fixpoint munge (s : string) : string :=
  match s with
  | EmptyString => EmptyString
  | String c s' => String (if is_ws c then " "%char else c) (munge s')
  end.

(** [_split]: the maximal runs of white space and of other characters. *)
Fixpoint split (s : string) : list string :=
  match s with
  | EmptyString => []
  | String c s' =>
      match split s' with
      | String d r :: chunks =>
          if Bool.eqb (is_ws c) (is_ws d)
          then String c (String d r) :: chunks
          else String c EmptyString :: String d r :: chunks
      | _ => [String c EmptyString]
      end
  end.

(** [chunk.strip() == ''] *)
Definition is_blank (chunk : string) : bool :=
  negb (PyStr.truthy (PyStr.strip chunk)).

(** The inner loop of [_wrap_chunks]: chunks move to the current line
    while they fit. *)
Fixpoint fill (width : nat) (cur_line : list string) (cur_len : nat)
    (chunks : list string) : list string * nat * list string :=
  match chunks with
  | [] => (cur_line, cur_len, [])
  | chunk :: rest =>
      let l := String.length chunk in
      if (cur_len + l <=? width)%nat
      then fill width (cur_line ++ [chunk]) (cur_len + l)%nat rest
      else (cur_line, cur_len, chunks)
  end.

(** The outer loop of [_wrap_chunks], [fuel] iterations at most; the chunks
    are taken from the front, as the code takes them from the end of the
    reversed list.  [None] when the iterations do not suffice. *)
Fixpoint wrap_chunks (fuel : nat) (width : nat) (chunks : list string)
    (lines : list string) : option (list string) :=
  match chunks with
  | [] => Some lines
  | first :: rest =>
      match fuel with
      | O => None
      | S fuel' =>
          (* a white space chunk does not start a line after the first *)
          let chunks :=
            match lines with
            | _ :: _ => if is_blank first then rest else chunks
            | [] => chunks
            end in
          let '(cur_line, cur_len, chunks) := fill width [] 0%nat chunks in
          (* [_handle_long_word]: a chunk longer than the width is cut
             where the line is full *)
          let '(cur_line, chunks) :=
            match chunks with
            | chunk :: rest' =>
                if (width <? String.length chunk)%nat
                then
                  let space_left := (width - cur_len)%nat in
                  (cur_line ++ [String.substring 0 space_left chunk],
                   String.substring space_left
                     (String.length chunk - space_left) chunk :: rest')
                else (cur_line, chunks)
            | [] => (cur_line, chunks)
            end in
          (* a white space chunk does not end a line *)
          let cur_line :=
            match last cur_line with
            | Some chunk =>
                if is_blank chunk then removelast cur_line else cur_line
            | None => cur_line
            end in
          let lines :=
            match cur_line with
            | [] => lines
            | _ :: _ => lines ++ [PyStr.join cur_line]
            end in
          wrap_chunks fuel' width chunks lines
      end
  end.

(** [textwrap.wrap(text, width)].  Every iteration of the outer loop
    removes a chunk or a character, so twice the length of the text and
    two more iterations are enough. *)
Definition wrap (text : string) (width : Z) : outcome :=
  if (width <=? 0)%Z then ValueError
  else if Extractor.contains_char "-" text
          || Extractor.contains_char (ascii_of_N 9) text
  then NotModelled
  else
    match wrap_chunks (2 * String.length text + 2) (Z.to_nat width)
            (split (munge text)) [] with
    | Some lines => Lines lines
    | None => NotModelled
    end.


End Textwrap.




(* ===================================================================== *)
(** ** Notions used in the statements *)
(* ===================================================================== *)

(** The identifier written for an end point, as a function of the
    identifier and the name the relation came with. *)
Definition resolved_id (self : DocumentLedger) (entity_id : option Z)
    (name' : option string) : option Z :=
  match _lookup self entity_id name' with
  | Some e => id e
  | None => entity_id
  end.

(** The relation [r'] differs from [r] at most in the two end point
    identifiers, and only where [r] had none. *)
Definition only_null_ids_filled (r r' : Relation) : Prop :=
  rel_id r' = rel_id r
  /\ predicate r' = predicate r
  /\ subject_name r' = subject_name r
  /\ object_name r' = object_name r
  /\ rel_description r' = rel_description r
  /\ rel_metadata r' = rel_metadata r
  /\ (forall i, subject_entity_id r = Some i -> subject_entity_id r' = Some i)
  /\ (forall i, object_entity_id r = Some i -> object_entity_id r' = Some i).

(** The values of an enumeration are exactly the strings of [names]. *)
Definition closed_set_of {A : Type} (value : A -> string)
    (names : list string) : Prop :=
  (forall t, value t ∈ names) /\ (forall s, s ∈ names -> exists t, value t = s).

(** The separator of the paragraphs. *)
Definition blank_line : string := String PyStr.LF (String PyStr.LF "").

(** The pieces [ps], each preceded by the separator. *)
Fixpoint tail_text (ps : list string) : string :=
  match ps with
  | [] => ""
  | p :: ps' => blank_line +:+ p +:+ tail_text ps'
  end.

(** ["\n\n".join(ps)] *)
Definition join_blank (ps : list string) : string :=
  match ps with
  | [] => ""
  | p :: ps' => p +:+ tail_text ps'
  end.

(** The paragraphs kept from the pieces [ps]. *)
Definition kept (ps : list string) : list string :=
  map PyStr.strip (List.filter (fun p => PyStr.truthy (PyStr.strip p)) ps).

(* ===================================================================== *)
(** ** [class SimpleEmbeddingService] ([embeddings.py]) *)
(* ===================================================================== *)

Module Embedding.
Section embedding.
Context {Rng Float : Type}.

(** [int.from_bytes(hashlib.sha256(text.encode("utf-8")).digest(), "big")] *)
Variable sha256_int : string -> Z.
(** [random.Random(seed)] and [rng.random()] *)
Variable rng_new : Z -> Rng.
Variable rng_random : Rng -> Float * Rng.

(** [self._dimension] *)
Variable dimension : Z.

(** [[rng.random() for _ in range(n)]] *)
Fixpoint draw (n : nat) (rng : Rng) : list Float :=
  match n with
  | O => []
  | S n' => let '(x, rng') := rng_random rng in x :: draw n' rng'
  end.

(** The body of the loop of [embed]. *)
Definition embed_step (vectors : list (list Float)) (text : string)
    : list (list Float) :=
  let seed := sha256_int text in
  let rng := rng_new seed in
  vectors ++ [draw (Z.to_nat dimension) rng].

(** [embed(texts)] *)
Definition embed (texts : list string) : list (list Float) :=
  foldl embed_step [] texts.

End embedding.
End Embedding.

(* ===================================================================== *)
(** ** Sample collaborators and notions for the further statements *)
(* ===================================================================== *)

(** A database engine whose world is the next primary key: every insert
    returns it and moves to the following one. *)
Module Sample.

Definition insert {Row : Type} (_ : Row) : io Z Z :=
  fun next => Some (next, (next + 1)%Z).

Definition json_dumps (_ : gmap string (option string)) : string := "{}".

Definition read_text (_ : string) : io Z string :=
  mret "Character: Alpha - a hero".

Definition utcnow : io Z Z := mret 0%Z.

(** The chunker of the command line interface, with a wrapper that gives
    its text back as one line. *)
Definition chunk (text : string) : io Z (list string) :=
  mret (Chunker.chunk (fun p _ => [p]) 800 text).

Definition extract (_ : Document string Z) (_ : list DocumentChunk)
    : io Z (list WorldEntity * list Relation) :=
  mret ([make_entity "Alpha" None; make_entity "alpha" None;
         make_entity "Beta" None],
        [make_relation (Some " ALPHA") (Some "Beta");
         make_relation (Some "Gamma") None]).

Definition embed (texts : list string) : io Z (list unit) :=
  mret (map (fun _ => tt) texts).

Definition save_embeddings (_ : list (Z * unit)) : io Z unit := mret tt.


End Sample.

(** The primary keys of a sequence of inserts, one per row, run in the
    order of the rows, each in the world the insert before it has left;
    nothing when one of them raises. *)
Fixpoint insert_all {World Row : Type} (insert : Row -> io World Z)
    (rows : list Row) : io World (list Z) :=
  match rows with
  | [] => mret []
  | row :: rest =>
      key ← insert row;
      keys ← insert_all insert rest;
      mret (key :: keys)
  end.

(** The values [save_entities] inserts for an entity, [save_relations] for
    a relation, and [save_document_with_chunks] for the document and for
    its chunk texts under the document identifier [document_id]. *)
Definition entity_values (json_dumps : gmap string (option string) -> string)
    (entity : WorldEntity) : Repository.entity_row :=
  Repository.mkEntityRow (chunk_id entity)
    (Worldbuild.value (entity_type entity)) (name entity)
    (description entity) (json_dumps (metadata entity)).

Definition relation_values (json_dumps : gmap string (option string) -> string)
    (relation : Relation) : Repository.relation_row :=
  Repository.mkRelationRow (predicate relation)
    (subject_entity_id relation) (subject_name relation)
    (object_entity_id relation) (object_name relation)
    (rel_description relation) (json_dumps (rel_metadata relation)).

Definition document_values {Path DateTime : Type}
    (json_dumps : gmap string (option string) -> string)
    (path_str : Path -> string) (d : Document Path DateTime)
    : Repository.document_row DateTime :=
  Repository.mkDocumentRow (path_str (doc_path d)) (doc_title d)
    (doc_content d) (json_dumps (doc_metadata d)) (doc_ingested_at d).

Definition chunk_values (json_dumps : gmap string (option string) -> string)
    (document_id : Z) (chunk_texts : list string) : list Repository.chunk_row :=
  imap (fun index chunk_text =>
          Repository.mkChunkRow document_id (Z.of_nat index) chunk_text
            (json_dumps ∅))
       chunk_texts.

(** The chunks [save_document_with_chunks] returns for the chunk texts and
    the primary keys of their inserts. *)
Definition chunks_stored (document_id : Z) (chunk_texts : list string)
    (keys : list Z) : list DocumentChunk :=
  imap (fun index text_key =>
          mkDocumentChunk (Some text_key.2) (Some document_id)
            (Z.of_nat index) text_key.1 ∅)
       (zip chunk_texts keys).

(** The relations [resolved] are the relations [relations], position by
    position, with nothing changed but null end point identifiers, and
    every end point without identifier whose name, not empty, has the
    normalized name of an entity of [stored] carries the identifier of that
    entity. *)
Definition resolved_against (stored : list WorldEntity)
    (relations resolved : list Relation) : Prop :=
  forall i r, relations !! i = Some r ->
    exists r', resolved !! i = Some r'
      /\ only_null_ids_filled r r'
      /\ (forall n s, subject_entity_id r = None -> subject_name r = Some n ->
             n <> "" -> s ∈ stored -> normalized_name s = _key n ->
             subject_entity_id r' = id s)
      /\ (forall n s, object_entity_id r = None -> object_name r = Some n ->
             n <> "" -> s ∈ stored -> normalized_name s = _key n ->
             object_entity_id r' = id s).

(* ===================================================================== *)
(** ** Properties *)
(* ===================================================================== *)

(** *** The unit tests of the repository, replayed on the embedding *)

Example test_register_entities_dedupes_by_name :
  map name (register_entities new_ledger
              [make_entity "Alpha" None; make_entity "alpha" None;
               make_entity "Beta" None]).2
  = ["Alpha"; "Beta"].
Proof. vm_compute. reflexivity. Qed.

Example test_update_with_stored_overwrites_ids :
  let ledger := (register_entities new_ledger [make_entity "Alpha" None]).1 in
  let ledger := update_with_stored ledger [make_entity "Alpha" (Some 42%Z)] in
  map subject_entity_id
      (resolve_relations ledger [make_relation (Some "Alpha") None])
  = [Some 42%Z].
Proof. vm_compute. reflexivity. Qed.

Example test_resolve_relations_handles_missing_entities :
  resolve_relations new_ledger [make_relation None None]
  = [make_relation None None].
Proof. vm_compute. reflexivity. Qed.

Example key_examples :
  _key "  Alpha " = "alpha" /\ _key " " = "" /\ _key "" = "".
Proof. vm_compute. auto. Qed.

(* ===================================================================== *)
(** *** Lemmas on the ordered dictionary *)
(* ===================================================================== *)

Section OrderedDict_facts.
Context {V : Type}.
Implicit Types (d : OrderedDict.t V) (k : string) (v : V).

Lemma od_get_set_eq k v d :
  OrderedDict.get k (OrderedDict.set k v d) = Some v.
Proof.
  induction d as [|[k' v'] d IH]; simpl.
  - by rewrite String.eqb_refl.
  - destruct (String.eqb_spec k' k) as [->|Hne]; simpl.
    + by rewrite String.eqb_refl.
    + destruct (String.eqb_spec k' k); [done | exact IH].
Qed.

Lemma od_get_set_ne k k' v d :
  k ≠ k' ->
  OrderedDict.get k' (OrderedDict.set k v d) = OrderedDict.get k' d.
Proof.
  intros Hne. induction d as [|[k0 v0] d IH]; simpl.
  - destruct (String.eqb_spec k k'); [done | reflexivity].
  - destruct (String.eqb_spec k0 k) as [->|Hk0]; simpl.
    + destruct (String.eqb_spec k k'); [done | reflexivity].
    + destruct (String.eqb_spec k0 k'); [reflexivity | exact IH].
Qed.

Lemma od_get_None k d :
  OrderedDict.get k d = None <-> k ∉ OrderedDict.keys d.
Proof.
  induction d as [|[k' v'] d IH]; simpl.
  - split; [intros _; apply not_elem_of_nil | done].
  - rewrite not_elem_of_cons.
    destruct (String.eqb_spec k' k) as [->|Hne]; split.
    + done.
    + intros [? _]; done.
    + intros H; split; [congruence | by apply IH].
    + intros [_ H]; by apply IH.
Qed.

Lemma od_contains_true k d :
  OrderedDict.contains k d = true <-> k ∈ OrderedDict.keys d.
Proof.
  unfold OrderedDict.contains.
  destruct (OrderedDict.get k d) eqn:E; split; try done.
  - intros _. destruct (decide (k ∈ OrderedDict.keys d)) as [|Hn]; [done|].
    apply od_get_None in Hn. congruence.
  - intros Hin. apply od_get_None in E. done.
Qed.

Lemma od_contains_false k d :
  OrderedDict.contains k d = false <-> k ∉ OrderedDict.keys d.
Proof.
  rewrite <- od_contains_true. destruct (OrderedDict.contains k d); split;
    try done; intros H; by destruct H.
Qed.

(** A new key goes to the end. *)
Lemma od_set_new k v d :
  k ∉ OrderedDict.keys d -> OrderedDict.set k v d = d ++ [(k, v)].
Proof.
  induction d as [|[k' v'] d IH]; simpl; [done|].
  rewrite not_elem_of_cons. intros [Hne Hnin].
  destruct (String.eqb_spec k' k); [congruence|]. by rewrite IH.
Qed.

(** An existing key keeps its position. *)
Lemma od_keys_set_old k v d :
  k ∈ OrderedDict.keys d ->
  OrderedDict.keys (OrderedDict.set k v d) = OrderedDict.keys d.
Proof.
  induction d as [|[k' v'] d IH]; simpl.
  - intros H; by apply elem_of_nil in H.
  - destruct (String.eqb_spec k' k) as [->|Hne]; simpl; [done|].
    rewrite elem_of_cons. intros [?|Hin]; [congruence|]. by rewrite IH.
Qed.

Lemma od_keys_set k v d :
  OrderedDict.keys (OrderedDict.set k v d)
  = if OrderedDict.contains k d then OrderedDict.keys d
    else OrderedDict.keys d ++ [k].
Proof.
  destruct (OrderedDict.contains k d) eqn:E.
  - apply od_keys_set_old, od_contains_true, E.
  - apply od_contains_false in E. rewrite od_set_new by done.
    unfold OrderedDict.keys. by rewrite map_app.
Qed.

Lemma od_elem_of_keys_set k k' v d :
  k' ∈ OrderedDict.keys (OrderedDict.set k v d)
  <-> k' = k \/ k' ∈ OrderedDict.keys d.
Proof.
  rewrite od_keys_set. destruct (OrderedDict.contains k d) eqn:E.
  - apply od_contains_true in E. split; [auto|]. intros [->|?]; done.
  - rewrite elem_of_app, list_elem_of_singleton. tauto.
Qed.

Lemma od_NoDup_set k v d :
  NoDup (OrderedDict.keys d) ->
  NoDup (OrderedDict.keys (OrderedDict.set k v d)).
Proof.
  intros Hnd. rewrite od_keys_set.
  destruct (OrderedDict.contains k d) eqn:E; [done|].
  apply od_contains_false in E. apply NoDup_app. split; [done|].
  split; [|apply NoDup_singleton].
  intros x Hx Hx'. apply list_elem_of_singleton in Hx'. by subst.
Qed.

(** The entry read under a key is an entry of the dictionary. *)
Lemma od_get_Some_elem k v d :
  OrderedDict.get k d = Some v -> (k, v) ∈ d.
Proof.
  induction d as [|[k' v'] d IH]; simpl; [done|].
  destruct (String.eqb_spec k' k) as [->|Hne].
  - intros [= ->]. apply elem_of_cons; by left.
  - intros H. apply elem_of_cons; right; by apply IH.
Qed.

(** With distinct keys, every entry is the one read under its key. *)
Lemma od_elem_get k v d :
  NoDup (OrderedDict.keys d) -> (k, v) ∈ d -> OrderedDict.get k d = Some v.
Proof.
  induction d as [|[k' v'] d IH]; simpl.
  - intros _ H; by apply elem_of_nil in H.
  - rewrite NoDup_cons, elem_of_cons. intros [Hnin Hnd] [Heq|Hin].
    + injection Heq as -> ->. by rewrite String.eqb_refl.
    + destruct (String.eqb_spec k' k) as [->|Hne]; [|by apply IH].
      exfalso. apply Hnin. unfold OrderedDict.keys.
      apply list_elem_of_fmap. by exists (k, v).
Qed.

End OrderedDict_facts.

(* ===================================================================== *)
(** *** Lemmas on [register_entities] *)
(* ===================================================================== *)

Lemma register_loop_acc es self unique :
  foldl register_step (self, unique) es
  = ((register_entities self es).1, unique ++ (register_entities self es).2).
Proof.
  unfold register_entities.
  revert self unique. induction es as [|e es IH]; intros self unique; simpl.
  - by rewrite app_nil_r.
  - destruct (OrderedDict.contains (_key (name e)) (_entities self)).
    + apply IH.
    + rewrite IH. rewrite (IH _ ([] ++ [e])). simpl.
      by rewrite <- app_assoc.
Qed.

(** The loop of [register_entities], one candidate at a time. *)
Lemma register_entities_cons self e es :
  register_entities self (e :: es)
  = if OrderedDict.contains (normalized_name e) (_entities self)
    then register_entities self es
    else
      let r := register_entities
                 (mkLedger (OrderedDict.set (normalized_name e) e
                              (_entities self))) es in
      (r.1, e :: r.2).
Proof.
  unfold register_entities at 1. simpl. unfold normalized_name.
  destruct (OrderedDict.contains (_key (name e)) (_entities self)).
  - reflexivity.
  - by rewrite register_loop_acc.
Qed.

Lemma register_entities_nil self : register_entities self [] = (self, []).
Proof. reflexivity. Qed.

(** The returned list, position by position. *)
Lemma register_first_mentions es : forall self seen pre,
  (forall k, k ∈ OrderedDict.keys (_entities self)
             <-> k ∈ seen \/ k ∈ map normalized_name pre) ->
  (register_entities self es).2 = first_mentions seen pre es.
Proof.
  induction es as [|e es IH]; intros self seen pre Hkeys; [done|].
  rewrite register_entities_cons. simpl.
  destruct (OrderedDict.contains _ _) eqn:E.
  - apply od_contains_true, Hkeys in E.
    rewrite bool_decide_eq_false_2 by tauto. simpl.
    apply IH. intros k. rewrite Hkeys, map_app, elem_of_app. simpl.
    rewrite list_elem_of_singleton. split; [tauto|].
    intros [?|[?| ->]]; tauto.
  - apply od_contains_false in E.
    rewrite bool_decide_eq_true_2; cycle 1.
    { split; intros Hin; apply E, Hkeys; tauto. }
    simpl. f_equal. apply IH. intros k. simpl.
    rewrite od_elem_of_keys_set, Hkeys, map_app, elem_of_app. simpl.
    rewrite list_elem_of_singleton. tauto.
Qed.

(** The keys after the call: the old ones and those of the candidates. *)
Lemma register_keys es : forall self k,
  k ∈ OrderedDict.keys (_entities (register_entities self es).1)
  <-> k ∈ OrderedDict.keys (_entities self) \/ k ∈ map normalized_name es.
Proof.
  induction es as [|e es IH]; intros self k.
  - simpl. rewrite elem_of_nil. tauto.
  - rewrite register_entities_cons. simpl. rewrite elem_of_cons.
    destruct (OrderedDict.contains _ _) eqn:E.
    + rewrite IH. apply od_contains_true in E. split; [tauto|].
      intros [?|[->|?]]; tauto.
    + simpl. rewrite IH. simpl. rewrite od_elem_of_keys_set. tauto.
Qed.

(** What is read under a key after the call: the record held before, or
    else the first candidate with that normalized name. *)
Lemma register_get es : forall self k,
  OrderedDict.get k (_entities (register_entities self es).1)
  = match OrderedDict.get k (_entities self) with
    | Some e => Some e
    | None => first_named k es
    end.
Proof.
  induction es as [|e es IH]; intros self k.
  - simpl. by destruct (OrderedDict.get _ _).
  - rewrite register_entities_cons. unfold first_named. simpl.
    destruct (OrderedDict.contains _ _) eqn:E.
    + rewrite IH. destruct (OrderedDict.get k _) eqn:G; [done|].
      destruct (String.eqb_spec (normalized_name e) k) as [<- | ?]; [|done].
      apply od_contains_true in E. apply od_get_None in G. done.
    + simpl. rewrite IH. simpl. apply od_contains_false in E.
      destruct (String.eqb_spec (normalized_name e) k) as [<-|Hne].
      * rewrite od_get_set_eq. apply od_get_None in E. by rewrite E.
      * by rewrite od_get_set_ne.
Qed.

(** Every returned entity is a candidate whose key was new. *)
Lemma register_novel_elem es : forall self e,
  e ∈ (register_entities self es).2 ->
  e ∈ es /\ normalized_name e ∉ OrderedDict.keys (_entities self).
Proof.
  induction es as [|e0 es IH]; intros self e.
  - simpl. intros H; by apply elem_of_nil in H.
  - rewrite register_entities_cons.
    destruct (OrderedDict.contains _ _) eqn:E; simpl.
    + intros H. apply IH in H as [? ?]. split; [by apply elem_of_cons; right|done].
    + apply od_contains_false in E. rewrite !elem_of_cons.
      intros [->|H]; [tauto|]. apply IH in H as [Hin Hk]. simpl in Hk.
      rewrite od_elem_of_keys_set in Hk. tauto.
Qed.

Lemma register_novel_NoDup es : forall self,
  NoDup (map normalized_name (register_entities self es).2).
Proof.
  induction es as [|e es IH]; intros self.
  - simpl. apply NoDup_nil_2.
  - rewrite register_entities_cons.
    destruct (OrderedDict.contains _ _) eqn:E; simpl; [apply IH|].
    apply NoDup_cons. split; [|apply IH].
    intros Hin. apply list_elem_of_fmap in Hin as (e' & Heq & Hin).
    apply register_novel_elem in Hin as [_ Hk]. simpl in Hk.
    rewrite od_elem_of_keys_set in Hk. apply Hk. by left.
Qed.

(** Every returned entity is the record read under its normalized name. *)
Lemma register_novel_get es self e :
  e ∈ (register_entities self es).2 ->
  OrderedDict.get (normalized_name e) (_entities (register_entities self es).1)
  = Some e.
Proof.
  revert self. induction es as [|e0 es IH]; intros self.
  - simpl. intros H; by apply elem_of_nil in H.
  - rewrite register_entities_cons.
    destruct (OrderedDict.contains _ _) eqn:E; simpl; [apply IH|].
    rewrite elem_of_cons. intros [->|Hin]; [|by apply IH].
    rewrite register_get. simpl. by rewrite od_get_set_eq.
Qed.

(** The returned list is a subsequence of the candidates. *)
Lemma register_novel_sublist es : forall self,
  (register_entities self es).2 `sublist_of` es.
Proof.
  induction es as [|e es IH]; intros self; [done|].
  rewrite register_entities_cons.
  destruct (OrderedDict.contains _ _); simpl.
  - by apply sublist_cons.
  - by apply sublist_skip.
Qed.

(** The entries after the call: the old ones, then the returned entities in
    order, each under its normalized name. *)
Lemma register_entries es : forall self,
  _entities (register_entities self es).1
  = _entities self
    ++ map (fun e => (normalized_name e, e)) (register_entities self es).2.
Proof.
  induction es as [|e es IH]; intros self.
  - simpl. by rewrite app_nil_r.
  - rewrite register_entities_cons.
    destruct (OrderedDict.contains _ _) eqn:E; simpl; [apply IH|].
    rewrite IH. simpl. apply od_contains_false in E.
    rewrite od_set_new by done. by rewrite <- app_assoc.
Qed.

(** A candidate is discarded only for a key the ledger had or for the
    normalized name of a returned entity. *)
Lemma register_discarded es self e :
  e ∈ es ->
  normalized_name e ∈ OrderedDict.keys (_entities self)
  \/ exists e', e' ∈ (register_entities self es).2
                 /\ normalized_name e' = normalized_name e.
Proof.
  intros He.
  assert (Hk : normalized_name e
               ∈ OrderedDict.keys (_entities (register_entities self es).1)).
  { apply register_keys. right. apply list_elem_of_fmap. by exists e. }
  rewrite register_entries in Hk. unfold OrderedDict.keys in Hk.
  rewrite map_app, map_map in Hk. simpl in Hk.
  apply elem_of_app in Hk as [Hk|Hk]; [by left|]. right.
  apply list_elem_of_fmap in Hk as (e' & Heq & He'). by exists e'.
Qed.

(* ===================================================================== *)
(** *** Lemmas on [update_with_stored] and on the invariant *)
(* ===================================================================== *)

Lemma update_with_stored_cons self e es :
  update_with_stored self (e :: es)
  = update_with_stored
      (mkLedger (OrderedDict.set (normalized_name e) e (_entities self))) es.
Proof. reflexivity. Qed.

Lemma last_named_cons k e l :
  last_named k (e :: l)
  = match last_named k l with
    | Some x => Some x
    | None => if String.eqb (normalized_name e) k then Some e else None
    end.
Proof.
  unfold last_named. simpl.
  destruct (String.eqb (normalized_name e) k).
  - rewrite last_cons. by destruct (last _).
  - by destruct (last _).
Qed.

Lemma last_named_app k l1 l2 :
  last_named k (l1 ++ l2)
  = match last_named k l2 with
    | Some x => Some x
    | None => last_named k l1
    end.
Proof.
  induction l1 as [|e l1 IH]; simpl.
  - unfold last_named at 3. simpl. by destruct (last_named k l2).
  - rewrite !last_named_cons, IH. by destruct (last_named k l2).
Qed.

(** What is read under a key after the call: the last stored entity with
    that normalized name, or else the record held before. *)
Lemma update_get es : forall self k,
  OrderedDict.get k (_entities (update_with_stored self es))
  = match last_named k es with
    | Some e => Some e
    | None => OrderedDict.get k (_entities self)
    end.
Proof.
  induction es as [|e es IH]; intros self k; [done|].
  rewrite update_with_stored_cons, IH, last_named_cons. simpl.
  destruct (last_named k es); [done|].
  destruct (String.eqb_spec (normalized_name e) k) as [<- | Hne].
  - apply od_get_set_eq.
  - by apply od_get_set_ne.
Qed.

Lemma keyed_set (d : OrderedDict.t WorldEntity) e :
  keyed d -> keyed (OrderedDict.set (normalized_name e) e d).
Proof.
  unfold keyed. induction d as [|[k' v'] d IH]; simpl; intros Hd.
  - by apply Forall_singleton.
  - apply Forall_cons in Hd as [Hk Hd]. simpl in Hk.
    destruct (String.eqb_spec k' (normalized_name e)) as [->|Hne].
    + by apply Forall_cons.
    + apply Forall_cons. split; [done | by apply IH].
Qed.

Lemma ledger_inv_set self e :
  ledger_inv self ->
  ledger_inv (mkLedger (OrderedDict.set (normalized_name e) e (_entities self))).
Proof.
  intros [Hnd Hk]. split; simpl; [by apply od_NoDup_set | by apply keyed_set].
Qed.

Lemma ledger_inv_new : ledger_inv new_ledger.
Proof. split; simpl; [apply NoDup_nil_2 | apply Forall_nil_2]. Qed.

Lemma register_inv es : forall self,
  ledger_inv self -> ledger_inv (register_entities self es).1.
Proof.
  induction es as [|e es IH]; intros self Hinv; [done|].
  rewrite register_entities_cons.
  destruct (OrderedDict.contains _ _); simpl; [by apply IH|].
  by apply IH, ledger_inv_set.
Qed.

Lemma update_inv es : forall self,
  ledger_inv self -> ledger_inv (update_with_stored self es).
Proof.
  induction es as [|e es IH]; intros self Hinv; [done|].
  rewrite update_with_stored_cons. by apply IH, ledger_inv_set.
Qed.

Lemma run_call_inv self c : ledger_inv self -> ledger_inv (run_call self c).1.
Proof.
  intros Hinv. destruct c as [es|es|rs]; simpl.
  - pose proof (register_inv es self Hinv) as H.
    by destruct (register_entities self es).
  - by apply update_inv.
  - done.
Qed.

Lemma run_calls_inv cs : forall self,
  ledger_inv self -> ledger_inv (run_calls self cs).
Proof.
  induction cs as [|c cs IH]; intros self Hinv; [done|].
  simpl. by apply IH, run_call_inv.
Qed.

(** Under the invariant the keys are the normalized names of the entities
    held, in order. *)
Lemma keyed_keys (d : OrderedDict.t WorldEntity) :
  keyed d -> OrderedDict.keys d = map normalized_name (OrderedDict.values d).
Proof.
  unfold keyed. induction d as [|[k v] d IH]; simpl; intros Hd; [done|].
  apply Forall_cons in Hd as [Hk Hd]. simpl in Hk. by rewrite IH, Hk.
Qed.

Lemma ledger_inv_one_per_name self :
  ledger_inv self -> one_entity_per_name self.
Proof.
  intros [Hnd Hk]. unfold one_entity_per_name. by rewrite <- keyed_keys.
Qed.

(** Under the invariant, the record read under a key is the only entity held
    with that normalized name. *)
Lemma ledger_inv_get self k :
  ledger_inv self ->
  OrderedDict.get k (_entities self)
  = last_named k (OrderedDict.values (_entities self)).
Proof.
  destruct self as [d]. unfold ledger_inv. simpl.
  induction d as [|[k' v] d IH]; intros [Hnd Hk]; [done|].
  simpl in *. apply NoDup_cons in Hnd as [Hnin Hnd].
  apply Forall_cons in Hk as [Hk' Hk]. simpl in Hk'. subst k'.
  rewrite last_named_cons, <- IH by done.
  destruct (String.eqb_spec (normalized_name v) k) as [<- | Hne].
  - apply od_get_None in Hnin. by rewrite Hnin.
  - by destruct (OrderedDict.get k d).
Qed.

(** Under the invariant, an entity matches a name exactly when the name's
    key is a key of the ledger. *)
Lemma ledger_inv_key_elem self k :
  ledger_inv self ->
  k ∈ OrderedDict.keys (_entities self)
  <-> exists e, e ∈ OrderedDict.values (_entities self) /\ normalized_name e = k.
Proof.
  intros [_ Hk]. rewrite (keyed_keys _ Hk), list_elem_of_fmap.
  split; intros (e & ? & ?); exists e; done.
Qed.

(* ===================================================================== *)
(** *** Lemmas on [_lookup] and [resolve_relations] *)
(* ===================================================================== *)

Lemma resolve_loop_acc self rs : forall acc,
  foldl (fun resolved relation => resolved ++ [resolve_relation self relation])
        acc rs
  = acc ++ map (resolve_relation self) rs.
Proof.
  induction rs as [|r rs IH]; intros acc; simpl.
  - by rewrite app_nil_r.
  - by rewrite IH, <- app_assoc.
Qed.

(** The loop builds the list of the resolved relations, in input order. *)
Lemma resolve_relations_map self rs :
  resolve_relations self rs = map (resolve_relation self) rs.
Proof. unfold resolve_relations. by rewrite resolve_loop_acc. Qed.

Lemma resolve_relations_lookup self rs i :
  resolve_relations self rs !! i = resolve_relation self <$> rs !! i.
Proof. rewrite resolve_relations_map. apply list_lookup_fmap. Qed.

Lemma resolve_relation_eq self r :
  resolve_relation self r
  = model_copy_update r
      (resolved_id self (subject_entity_id r) (subject_name r))
      (resolved_id self (object_entity_id r) (object_name r)).
Proof. reflexivity. Qed.

(** A search by identifier returns an entity with that identifier. *)
Lemma lookup_by_id self i n e :
  _lookup self (Some i) n = Some e -> id e = Some i.
Proof.
  simpl. intros H. apply List.find_some in H as [_ H].
  by apply bool_decide_eq_true in H.
Qed.

(** An identifier that is present is written back unchanged. *)
Lemma resolved_id_Some self i n : resolved_id self (Some i) n = Some i.
Proof.
  unfold resolved_id. destruct (_lookup self (Some i) n) as [e|] eqn:E; [|done].
  by apply lookup_by_id in E.
Qed.

Lemma resolved_id_idem self i n :
  resolved_id self (resolved_id self i n) n = resolved_id self i n.
Proof.
  destruct i as [i|]; [by rewrite !resolved_id_Some|].
  destruct (resolved_id self None n) as [j|] eqn:E; [|done].
  apply resolved_id_Some.
Qed.

(** A search by name that misses leaves the identifier null. *)
Lemma resolved_id_miss self n :
  (forall s, n = Some s -> OrderedDict.get (_key s) (_entities self) = None) ->
  resolved_id self None n = None.
Proof.
  intros H. unfold resolved_id. simpl. destruct n as [s|]; [|done].
  destruct (PyStr.truthy s); [|done]. by rewrite (H s eq_refl).
Qed.

(** The empty name is not searched for. *)
Lemma lookup_empty_name self : _lookup self None (Some "") = None.
Proof. reflexivity. Qed.

(** A non-empty name is searched for under its key. *)
Lemma lookup_by_name self n :
  n <> "" ->
  _lookup self None (Some n) = OrderedDict.get (_key n) (_entities self).
Proof. intros H. simpl. by destruct n. Qed.

Lemma resolve_relation_frame self r :
  only_null_ids_filled r (resolve_relation self r).
Proof.
  rewrite resolve_relation_eq. unfold only_null_ids_filled. simpl.
  repeat split; try done; intros i ->; apply resolved_id_Some.
Qed.

Lemma resolve_relation_idem self r :
  resolve_relation self (resolve_relation self r) = resolve_relation self r.
Proof.
  rewrite !resolve_relation_eq. unfold model_copy_update. simpl.
  by rewrite !resolved_id_idem.
Qed.

(* ===================================================================== *)
(** *** Properties of the specification: registration *)
(* ===================================================================== *)

(** C1.  [register_entities] returns exactly the candidates whose normalized
    name occurs neither among the keys already in the ledger nor at an
    earlier position of the input ([first_mentions]), in input order (a
    subsequence of the input); the normalized names of the returned
    entities are pairwise distinct; after the call each returned entity is
    the record the ledger holds under its normalized name, and a search by
    its name finds it unless that name is the empty string, which [_lookup]
    never searches for.  The normalized name of every candidate, returned
    or discarded, is a key the ledger already had or the normalized name of
    a returned entity.  On a new ledger, candidates named "Alpha", "alpha"
    and "Beta" (other fields arbitrary) give back the first and the third,
    in that order. *)
Theorem register_entities_returns_first_mentions
    (self : DocumentLedger) (entities : list WorldEntity) :
  let self' := (register_entities self entities).1 in
  let unique := (register_entities self entities).2 in
  unique = first_mentions (OrderedDict.keys (_entities self)) [] entities
  /\ unique `sublist_of` entities
  /\ NoDup (map normalized_name unique)
  /\ (forall e, e ∈ unique ->
        OrderedDict.get (normalized_name e) (_entities self') = Some e)
  /\ (forall e, e ∈ unique -> name e <> "" ->
        _lookup self' None (Some (name e)) = Some e)
  /\ (forall e, e ∈ entities ->
        normalized_name e ∈ OrderedDict.keys (_entities self)
        \/ exists e', e' ∈ unique /\ normalized_name e' = normalized_name e)
  /\ (forall e1 e2 e3,
        name e1 = "Alpha" -> name e2 = "alpha" -> name e3 = "Beta" ->
        (register_entities new_ledger [e1; e2; e3]).2 = [e1; e3]).
Proof.
  intros self' unique. subst self' unique. repeat split.
  - apply register_first_mentions. intros k. simpl. rewrite elem_of_nil. tauto.
  - apply register_novel_sublist.
  - apply register_novel_NoDup.
  - intros e He. by apply register_novel_get.
  - intros e He Hne. rewrite lookup_by_name by done.
    by apply register_novel_get.
  - intros e He. by apply register_discarded.
  - intros [i1 c1 t1 n1 d1 m1] [i2 c2 t2 n2 d2 m2] [i3 c3 t3 n3 d3 m3].
    simpl. intros -> -> ->. vm_compute. reflexivity.
Qed.

(* ===================================================================== *)
(** *** Properties of the specification: resolution *)
(* ===================================================================== *)

(** C2.  [resolve_relations] fabricates no identifier.  In a ledger that
    satisfies its invariant, take the relation at any position of the input:
    if its subject identifier is null and its subject name, normalized,
    is the normalized name of no entity held by the ledger (a null name
    matches nothing), then the relation at the same position of the output
    has a null subject identifier and the same subject name; and likewise
    for the object. *)
Theorem resolve_relations_never_fabricates
    (self : DocumentLedger) (relations : list Relation) (i : nat)
    (r : Relation) :
  ledger_inv self ->
  relations !! i = Some r ->
  exists r', resolve_relations self relations !! i = Some r'
    /\ (subject_entity_id r = None ->
        (forall n e, subject_name r = Some n ->
                     e ∈ OrderedDict.values (_entities self) ->
                     normalized_name e <> _key n) ->
        subject_entity_id r' = None /\ subject_name r' = subject_name r)
    /\ (object_entity_id r = None ->
        (forall n e, object_name r = Some n ->
                     e ∈ OrderedDict.values (_entities self) ->
                     normalized_name e <> _key n) ->
        object_entity_id r' = None /\ object_name r' = object_name r).
Proof.
  intros Hinv Hi. exists (resolve_relation self r).
  rewrite resolve_relations_lookup, Hi. split; [done|].
  assert (Hmiss : forall nm,
    (forall n e, nm = Some n -> e ∈ OrderedDict.values (_entities self) ->
                 normalized_name e <> _key n) ->
    resolved_id self None nm = None).
  { intros nm Hno. apply resolved_id_miss. intros s ->.
    apply od_get_None. intros Hin.
    apply (ledger_inv_key_elem _ _ Hinv) in Hin as (e & He & Hk).
    by apply (Hno s e). }
  rewrite resolve_relation_eq. simpl.
  split; intros Hnull Hno; rewrite Hnull; (split; [by apply Hmiss | done]).
Qed.

(** The hypotheses of C2 hold of the ledger of the unit tests after "Alpha"
    was registered, and of a relation that names an unknown "Gamma". *)
Lemma resolve_relations_never_fabricates_witness :
  let self := (register_entities new_ledger [make_entity "Alpha" None]).1 in
  let r := make_relation (Some "Gamma") (Some "Alpha") in
  exists r', resolve_relations self [r] !! 0%nat = Some r'
    /\ (subject_entity_id r = None ->
        (forall n e, subject_name r = Some n ->
                     e ∈ OrderedDict.values (_entities self) ->
                     normalized_name e <> _key n) ->
        subject_entity_id r' = None /\ subject_name r' = subject_name r)
    /\ (object_entity_id r = None ->
        (forall n e, object_name r = Some n ->
                     e ∈ OrderedDict.values (_entities self) ->
                     normalized_name e <> _key n) ->
        object_entity_id r' = None /\ object_name r' = object_name r).
Proof.
  intros self r.
  apply (resolve_relations_never_fabricates self [r] 0 r).
  - apply register_inv, ledger_inv_new.
  - reflexivity.
Defined.

(** C4.  After an entity named "Alpha" was registered and an entity named
    "Alpha" with identifier 42 was passed to [update_with_stored], a
    relation whose subject name is "Alpha" and whose subject identifier is
    null resolves to a relation with subject identifier 42 (whatever the
    ledger held before and whatever the other fields are). *)
Theorem update_then_resolve_alpha
    (self : DocumentLedger) (e1 e2 : WorldEntity) (r : Relation) :
  name e1 = "Alpha" ->
  name e2 = "Alpha" -> id e2 = Some 42%Z ->
  subject_name r = Some "Alpha" -> subject_entity_id r = None ->
  let ledger := (register_entities self [e1]).1 in
  let ledger := update_with_stored ledger [e2] in
  exists r', resolve_relations ledger [r] = [r']
             /\ subject_entity_id r' = Some 42%Z.
Proof.
  intros H1 H2 Hid Hn Hnull ledger ledger0.
  exists (resolve_relation ledger0 r). split; [reflexivity|].
  rewrite resolve_relation_eq. simpl. rewrite Hn, Hnull.
  unfold resolved_id. rewrite lookup_by_name by done.
  subst ledger0. rewrite update_get, last_named_cons.
  assert (Hk : normalized_name e2 = _key "Alpha")
    by (unfold normalized_name; by rewrite H2).
  unfold last_named at 1. simpl. rewrite Hk, String.eqb_refl. exact Hid.
Qed.

(** The scenario of [test_update_with_stored_overwrites_ids]. *)
Lemma update_then_resolve_alpha_witness :
  exists r',
    resolve_relations
      (update_with_stored
         (register_entities new_ledger [make_entity "Alpha" None]).1
         [make_entity "Alpha" (Some 42%Z)])
      [make_relation (Some "Alpha") None] = [r']
    /\ subject_entity_id r' = Some 42%Z.
Proof.
  apply (update_then_resolve_alpha new_ledger (make_entity "Alpha" None)
           (make_entity "Alpha" (Some 42%Z))
           (make_relation (Some "Alpha") None));
    reflexivity.
Defined.

(** C5.  On a fixed ledger [resolve_relations] is idempotent: resolving its
    own output gives that output again. *)
Theorem resolve_relations_idempotent
    (self : DocumentLedger) (relations : list Relation) :
  resolve_relations self (resolve_relations self relations)
  = resolve_relations self relations.
Proof.
  rewrite !resolve_relations_map, map_map.
  apply map_ext. intros r. apply resolve_relation_idem.
Qed.

(** C10.  An end point whose identifier is null and whose name is the empty
    string is not searched for: [_lookup] answers [None], and the resolved
    relation keeps the null identifier and the empty name, for the subject
    and for the object, in every ledger; in particular in a ledger that
    holds, under the key "", an entity whose name is white space only. *)
Theorem resolve_empty_name_not_searched :
  (forall self, _lookup self None (Some "") = None)
  /\ (forall self r,
        subject_entity_id r = None -> subject_name r = Some "" ->
        subject_entity_id (resolve_relation self r) = None
        /\ subject_name (resolve_relation self r) = Some "")
  /\ (forall self r,
        object_entity_id r = None -> object_name r = Some "" ->
        object_entity_id (resolve_relation self r) = None
        /\ object_name (resolve_relation self r) = Some "")
  /\ (let blank_named := make_entity "  " (Some 7%Z) in
      let self := update_with_stored new_ledger [blank_named] in
      OrderedDict.get "" (_entities self) = Some blank_named
      /\ normalized_name blank_named = ""
      /\ resolve_relations self [make_relation (Some "") (Some "")]
         = [make_relation (Some "") (Some "")]).
Proof.
  split; [|split; [|split]].
  - intros self. apply lookup_empty_name.
  - intros self r Hid Hn. rewrite resolve_relation_eq. simpl.
    rewrite Hid, Hn. split; reflexivity.
  - intros self r Hid Hn. rewrite resolve_relation_eq. simpl.
    rewrite Hid, Hn. split; reflexivity.
  - vm_compute. repeat split; reflexivity.
Qed.

(** *** Relations as objects: the loop over references *)

Lemma alloc_fresh (h : gmap Store.loc Relation) r :
  h !! (Store.alloc h r).2 = None.
Proof. simpl. apply not_elem_of_dom, is_fresh. Qed.

Lemma store_resolve_loop self ps : forall (h : gmap Store.loc Relation) acc,
  Forall (fun p => is_Some (h !! p)) ps ->
  exists h' qs,
    Store.resolve_loop self h ps acc = Some (h', acc ++ qs)
    /\ h ⊆ h'
    /\ NoDup qs
    /\ Forall (fun q => h !! q = None) qs
    /\ Forall2 (fun p q => exists r, h !! p = Some r
                  /\ h' !! q = Some (resolve_relation self r)) ps qs.
Proof.
  induction ps as [|p ps IH]; intros h acc Hval.
  - exists h, []. simpl. rewrite app_nil_r.
    repeat split; [done | apply NoDup_nil_2 | apply Forall_nil_2
                  | apply Forall2_nil_2].
  - apply Forall_cons in Hval as [[r Hr] Hval]. simpl. rewrite Hr.
    set (q := fresh (dom h)).
    assert (Hq : h !! q = None) by apply (alloc_fresh h (resolve_relation self r)).
    set (h1 := <[q := resolve_relation self r]> h).
    assert (Hsub : h ⊆ h1) by by apply insert_subseteq.
    destruct (IH h1 (acc ++ [q])) as (h' & qs & Heq & Hsub' & Hnd & Hnew & Hall).
    { eapply Forall_impl; [exact Hval|]. intros p' [r' Hr'].
      exists r'. by eapply lookup_weaken. }
    exists h', (q :: qs). rewrite Heq, <- app_assoc. simpl.
    assert (Hq1 : h1 !! q = Some (resolve_relation self r))
      by apply lookup_insert_eq.
    repeat split.
    + by transitivity h1.
    + apply NoDup_cons. split; [|done]. intros Hin.
      rewrite Forall_forall in Hnew. specialize (Hnew q Hin). congruence.
    + apply Forall_cons. split; [done|].
      eapply Forall_impl; [exact Hnew|]. intros q' Hq'. simpl in Hq'.
      destruct (h !! q') eqn:E; [|done].
      eapply lookup_weaken in E; [|exact Hsub]. congruence.
    + apply Forall2_cons. split.
      * exists r. split; [done|]. by eapply lookup_weaken.
      * clear IH Heq Hnd Hnew.
        induction Hall as [|p' q' ps' qs' Hpq Hall IHall];
          [apply Forall2_nil_2|].
        apply Forall_cons in Hval as [[r' Hr'] Hval].
        apply Forall2_cons. split; [|by apply IHall].
        destruct Hpq as (r1 & Hr1 & Hq'). exists r'. split; [done|].
        eapply lookup_weaken in Hr'; [|exact Hsub]. congruence.
Qed.

Example store_resolve_twice :
  let r := make_relation (Some "Alpha") None in
  match Store.resolve_relations new_ledger {[ 5%positive := r ]}
          [5%positive; 5%positive] with
  | Some (h', resolved) =>
      length resolved = 2%nat /\ h' !! 5%positive = Some r /\ size h' = 3%nat
  | None => False
  end.
Proof. vm_compute. auto. Qed.

(** C3.  [resolve_relations], run on references to relation objects that
    are all live, returns: it gives as many references as it was given, in
    the same order; every object of the store before the call, the inputs
    among them, has the same value after it; the references returned are
    pairwise distinct and name objects that did not exist before; and the
    object returned at position [i] holds [resolve_relation] of the value of
    the input at position [i], which agrees with that value on every field
    other than the two end point identifiers and on each end point
    identifier that was not null.  The list of values [resolve_relations]
    computes has the length of its input and satisfies the same at every
    position. *)
Theorem resolve_relations_frame
    (self : DocumentLedger) (h : gmap Store.loc Relation)
    (relations : list Store.loc) :
  Forall (fun p => is_Some (h !! p)) relations ->
  (exists h' resolved,
     Store.resolve_relations self h relations = Some (h', resolved)
     /\ length resolved = length relations
     /\ (forall p r, h !! p = Some r -> h' !! p = Some r)
     /\ NoDup resolved
     /\ Forall (fun q => h !! q = None) resolved
     /\ Forall2 (fun p q => exists r r',
                   h !! p = Some r /\ h' !! q = Some r'
                   /\ r' = resolve_relation self r
                   /\ only_null_ids_filled r r') relations resolved)
  /\ (forall values : list Relation,
        length (resolve_relations self values) = length values
        /\ Forall2 only_null_ids_filled values (resolve_relations self values)).
Proof.
  intros Hval. split.
  - destruct (store_resolve_loop self relations h [] Hval)
      as (h' & qs & Heq & Hsub & Hnd & Hnew & Hall).
    exists h', qs. simpl in Heq. repeat split; try done.
    + symmetry. by eapply Forall2_length.
    + intros p r Hp. by eapply lookup_weaken.
    + eapply Forall2_impl; [exact Hall|]. intros p q (r & Hp & Hq).
      exists r, (resolve_relation self r).
      repeat split; try done; apply resolve_relation_frame.
  - intros values. rewrite resolve_relations_map. split.
    + apply length_map.
    + apply Forall2_fmap_r, Forall_Forall2_diag, Forall_forall.
      intros r _. apply resolve_relation_frame.
Qed.

(** The hypothesis of C3 holds of a store with one relation object, passed
    twice. *)
Lemma resolve_relations_frame_witness :
  let h : gmap Store.loc Relation :=
    {[ 5%positive := make_relation (Some "Alpha") None ]} in
  let relations := [5%positive; 5%positive] in
  (exists h' resolved,
     Store.resolve_relations new_ledger h relations = Some (h', resolved)
     /\ length resolved = length relations
     /\ (forall p r, h !! p = Some r -> h' !! p = Some r)
     /\ NoDup resolved
     /\ Forall (fun q => h !! q = None) resolved
     /\ Forall2 (fun p q => exists r r',
                   h !! p = Some r /\ h' !! q = Some r'
                   /\ r' = resolve_relation new_ledger r
                   /\ only_null_ids_filled r r') relations resolved)
  /\ (forall values : list Relation,
        length (resolve_relations new_ledger values) = length values
        /\ Forall2 only_null_ids_filled values
             (resolve_relations new_ledger values)).
Proof.
  intros h relations.
  apply (resolve_relations_frame new_ledger h relations).
  repeat constructor; exists (make_relation (Some "Alpha") None);
    vm_compute; reflexivity.
Defined.

(* ===================================================================== *)
(** *** Properties of the specification: the state of the ledger *)
(* ===================================================================== *)

(** C6 as stated fails on the order of lookups: of two candidates
    registered under one key, "Alpha" described as "first" and then "alpha"
    described as "second", the ledger keeps the first, not the one
    registered last. *)
Lemma last_registered_does_not_win :
  let first := mkWorldEntity None None LOCATION "Alpha" "first" ∅ in
  let second := mkWorldEntity None None LOCATION "alpha" "second" ∅ in
  OrderedDict.get "alpha"
    (_entities (register_entities new_ledger [first; second]).1)
  = Some first
  /\ last_named "alpha" [first; second] = Some second
  /\ ~ last_registered_wins [first; second].
Proof.
  intros first second. split; [by vm_compute|]. split; [by vm_compute|].
  intros H. specialize (H "alpha"). vm_compute in H. discriminate H.
Qed.

(** C6, amended.  The ledger holds at most one entity per normalized name.
    The invariant [ledger_inv] (distinct keys, every entry filed under the
    normalized name of its entity) holds of the new ledger, is preserved by
    each of the three calls, and implies [one_entity_per_name]; hence that
    holds after every sequence of calls, and one more call keeps it.
    [resolve_relations] leaves the state as it is.  For lookups: after
    [register_entities] and then [update_with_stored], the record under a
    key is the last stored entity with that normalized name; if there is
    none, the record the ledger held before the registration; and if there
    was none, the first registered candidate with that normalized name (a
    later duplicate never replaces it).  Registration order decides what
    is reported: the returned list is [first_mentions] of the input. *)
Theorem ledger_one_entity_per_name :
  ledger_inv new_ledger
  /\ (forall self c, ledger_inv self -> ledger_inv (run_call self c).1)
  /\ (forall self, ledger_inv self -> one_entity_per_name self)
  /\ (forall cs c,
        one_entity_per_name (run_calls new_ledger cs)
        /\ one_entity_per_name (run_call (run_calls new_ledger cs) c).1)
  /\ (forall self relations,
        (run_call self (ResolveRelations relations)).1 = self)
  /\ (forall self entities stored k,
        OrderedDict.get k
          (_entities (update_with_stored
                        (register_entities self entities).1 stored))
        = match last_named k stored with
          | Some e => Some e
          | None =>
              match OrderedDict.get k (_entities self) with
              | Some e => Some e
              | None => first_named k entities
              end
          end)
  /\ (forall self entities k,
        OrderedDict.get k (_entities (register_entities self entities).1)
        = match OrderedDict.get k (_entities self) with
          | Some e => Some e
          | None => first_named k entities
          end)
  /\ (forall self entities,
        (register_entities self entities).2
        = first_mentions (OrderedDict.keys (_entities self)) [] entities).
Proof.
  repeat split.
  - apply NoDup_nil_2.
  - apply Forall_nil_2.
  - by apply run_call_inv.
  - by apply run_call_inv.
  - by apply ledger_inv_one_per_name.
  - apply ledger_inv_one_per_name, run_calls_inv, ledger_inv_new.
  - apply ledger_inv_one_per_name, run_call_inv, run_calls_inv, ledger_inv_new.
  - intros self entities stored k. by rewrite update_get, register_get.
  - intros self entities k. apply register_get.
  - intros self entities. apply register_first_mentions.
    intros k. simpl. rewrite elem_of_nil. tauto.
Qed.

(* ===================================================================== *)
(** *** Properties of the specification: no errors *)
(* ===================================================================== *)

Lemma lookup_exn_ok self i n : _lookup_exn self i n = Ok (_lookup self i n).
Proof.
  destruct i as [i|]; [done|]. destruct n as [n|]; [|done].
  simpl. by destruct (PyStr.truthy n).
Qed.

Lemma resolve_relation_exn_ok self r :
  resolve_relation_exn self r = Ok (resolve_relation self r).
Proof.
  unfold resolve_relation_exn, resolve_relation.
  rewrite !lookup_exn_ok. simpl.
  destruct (_lookup self (subject_entity_id r) (subject_name r));
    destruct (_lookup self (object_entity_id r) (object_name r)); done.
Qed.

Lemma resolve_relations_exn_acc self rs : forall acc,
  foldl (fun acc relation =>
           resolved ← acc;
           r ← resolve_relation_exn self relation;
           Ok (resolved ++ [r]))
        (Ok acc) rs
  = Ok (acc ++ map (resolve_relation self) rs).
Proof.
  induction rs as [|r rs IH]; intros acc; simpl.
  - by rewrite app_nil_r.
  - rewrite resolve_relation_exn_ok. simpl. by rewrite IH, <- app_assoc.
Qed.

(** C7.  The calls of the ledger are total and raise nothing: every call
    yields a state and a value; [resolve_relations], run with the failure of
    an attribute access on [None] made explicit, never takes that failure
    and returns what [resolve_relations] computes; and a relation whose two
    names and two end point identifiers are null is returned with both
    identifiers still null (it is returned unchanged), in every ledger. *)
Theorem ledger_calls_total :
  (forall self c, exists self' out, run_call self c = (self', out))
  /\ (forall self relations,
        resolve_relations_exn self relations
        = Ok (resolve_relations self relations))
  /\ (forall self r,
        subject_name r = None -> object_name r = None ->
        subject_entity_id r = None -> object_entity_id r = None ->
        resolve_relations_exn self [r] = Ok [r]
        /\ resolve_relations self [r] = [r]).
Proof.
  split; [|split].
  - intros self c. destruct (run_call self c) as [self' out]. by exists self', out.
  - intros self relations. unfold resolve_relations_exn.
    rewrite resolve_relations_exn_acc, resolve_relations_map. done.
  - intros self [i p si sn oi on d m]. simpl. intros -> -> -> ->.
    split; reflexivity.
Qed.

(* ===================================================================== *)
(** *** Properties of the specification: the entity categories *)
(* ===================================================================== *)

(** Membership in an explicit list. *)
Ltac in_list :=
  repeat first [ apply list_elem_of_here | apply list_elem_of_further ].

(** C8 as stated fails for the [EntityType] of the [worldbuild] package: its
    values are not the seven categories, since no member has the value
    "faction". *)
Lemma worldbuild_entity_type_not_seven :
  ~ closed_set_of Worldbuild.value seven_categories.
Proof.
  intros [_ H]. destruct (H "faction") as [t Ht].
  - unfold seven_categories. in_list.
  - destruct t; discriminate Ht.
Qed.

(** C8, amended.  The [EntityType] of the [resonance] package has exactly
    the seven values character, location, organization, item, faction,
    event, concept: every member's value is one of them, each of them is
    the value of a member, they are pairwise distinct, and [EntityType(s)]
    succeeds exactly on them.  The [EntityType] of the [worldbuild] package
    has exactly the first four (character, location, organization, item);
    the category of every [WorldEntity] of that package is therefore one of
    the seven, but faction, event and concept are not values of it. *)
Theorem entity_type_closed_sets :
  closed_set_of Resonance.value seven_categories
  /\ NoDup seven_categories
  /\ length seven_categories = 7%nat
  /\ map Resonance.value Resonance.members = seven_categories
  /\ (forall s, is_Some (Resonance.of_value s) <-> s ∈ seven_categories)
  /\ closed_set_of Worldbuild.value
       ["character"; "location"; "organization"; "item"]
  /\ (forall e : WorldEntity,
        Worldbuild.value (entity_type e) ∈ seven_categories)
  /\ Worldbuild.of_value "faction" = None
  /\ Worldbuild.of_value "event" = None
  /\ Worldbuild.of_value "concept" = None.
Proof.
  assert (Hres : forall s, s ∈ seven_categories ->
                           exists t, Resonance.value t = s).
  { intros s Hs. unfold seven_categories in Hs.
    repeat (apply elem_of_cons in Hs as [->|Hs]);
      [ by exists Resonance.CHARACTER | by exists Resonance.LOCATION
      | by exists Resonance.ORGANIZATION | by exists Resonance.ITEM
      | by exists Resonance.FACTION | by exists Resonance.EVENT
      | by exists Resonance.CONCEPT | by apply elem_of_nil in Hs ]. }
  assert (Hin : forall t, Resonance.value t ∈ seven_categories).
  { intros t. unfold seven_categories. destruct t; simpl; in_list. }
  split; [by split|]. split.
  { unfold seven_categories.
    repeat (apply NoDup_cons_2;
            [rewrite ?elem_of_cons, elem_of_nil; intuition discriminate|]).
    apply NoDup_nil_2. }
  split; [done|]. split; [done|]. split; [|split; [split|]].
  - intros s. split.
    + intros [t Ht]. apply List.find_some in Ht as [_ Ht].
      apply String.eqb_eq in Ht as <-. apply Hin.
    + intros Hs. destruct (Hres s Hs) as [t <-]. by destruct t.
  - intros t. destruct t; simpl; in_list.
  - intros s Hs.
    repeat (apply elem_of_cons in Hs as [->|Hs]);
      [ by exists CHARACTER | by exists LOCATION | by exists ORGANIZATION
      | by exists ITEM | by apply elem_of_nil in Hs ].
  - split; [|done]. intros e. unfold seven_categories.
    destruct (entity_type e); simpl; in_list.
Qed.

(* ===================================================================== *)
(** *** Properties of the specification: the chunker *)
(* ===================================================================== *)

Section strings.
Import PyStr Chunker.
Implicit Types (s t : string) (c : ascii).

Lemma sapp_nil_l s : "" +:+ s = s.
Proof. reflexivity. Qed.

Lemma sapp_cons c s t : String c s +:+ t = String c (s +:+ t).
Proof. reflexivity. Qed.

Ltac sapp := rewrite ?sapp_cons, ?sapp_nil_l.
Tactic Notation "sapp" "in" hyp(H) := rewrite ?sapp_cons, ?sapp_nil_l in H.

Lemma sapp_nil_r s : s +:+ "" = s.
Proof. induction s as [|c s IH]; [done|]. sapp. by rewrite IH. Qed.


Lemma nonspace_app s t : nonspace (s +:+ t) = nonspace s +:+ nonspace t.
Proof.
  induction s as [|c s IH]; [done|]. sapp. simpl.
  destruct (isspace c); [done|]. sapp. by rewrite IH.
Qed.



Lemma blank_blank_line : blank blank_line.
Proof. reflexivity. Qed.

(** What [lstrip] removes is white space in front. *)
Lemma lstrip_layout s : exists lead, blank lead /\ s = lead +:+ lstrip s.
Proof.
  induction s as [|c s (lead & Hb & Heq)]; [by exists ""|].
  simpl. destruct (isspace c) eqn:Ec.
  - exists (String c lead). split.
    + unfold blank. simpl. by rewrite Ec.
    + sapp. by rewrite <- Heq.
  - by exists "".
Qed.

(** What [rstrip] removes is white space at the end. *)
Lemma rstrip_layout s : exists trail, blank trail /\ s = rstrip s +:+ trail.
Proof.
  induction s as [|c s (trail & Hb & Heq)]; [by exists ""|].
  simpl. destruct (rstrip s) as [|a r] eqn:Er.
  - sapp in Heq. subst trail. destruct (isspace c) eqn:Ec.
    + exists (String c s). split; [|done]. unfold blank. simpl. by rewrite Ec.
    + by exists s.
  - exists trail. split; [done|]. sapp. sapp in Heq. by rewrite <- Heq.
Qed.

Lemma strip_layout s :
  exists lead trail, blank lead /\ blank trail
                     /\ s = lead +:+ strip s +:+ trail.
Proof.
  destruct (lstrip_layout s) as (lead & Hl & Hs).
  destruct (rstrip_layout (lstrip s)) as (trail & Ht & Hs').
  exists lead, trail. repeat split; try done.
  unfold strip. by rewrite <- Hs', <- Hs.
Qed.

Lemma nonspace_strip s : nonspace (strip s) = nonspace s.
Proof.
  destruct (strip_layout s) as (lead & trail & Hl & Ht & Hs).
  rewrite Hs at 2. rewrite !nonspace_app, Hl, Ht. sapp. by rewrite sapp_nil_r.
Qed.

(** A piece that strips to nothing is white space. *)
Lemma strip_empty_blank s : truthy (strip s) = false -> blank s.
Proof.
  intros H. unfold blank. rewrite <- nonspace_strip.
  by destruct (strip s).
Qed.

Lemma rev_app_app s t u :
  String.rev_app s (t +:+ u) = String.rev_app s t +:+ u.
Proof.
  revert t. induction s as [|c s IH]; intros t; [done|].
  simpl. by rewrite <- IH.
Qed.

Lemma split_blank_go_two cur c c' s :
  split_blank_go cur (String c (String c' s))
  = if Ascii.eqb c LF && Ascii.eqb c' LF
    then String.rev cur :: split_blank_go "" s
    else split_blank_go (String c cur) (String c' s).
Proof. reflexivity. Qed.

Lemma rev_app_rev s t : String.rev_app s t = String.rev s +:+ t.
Proof. unfold String.rev. by rewrite <- rev_app_app. Qed.

(** [split] returns at least one piece. *)
Lemma split_blank_go_nonempty n : forall s cur,
  (String.length s <= n)%nat -> split_blank_go cur s <> [].
Proof.
  induction n as [|n IH]; intros s cur Hn.
  - destruct s; [done | simpl in Hn; lia].
  - destruct s as [|c [|c' s]]; [done | done |].
    rewrite split_blank_go_two.
    destruct (Ascii.eqb c LF && Ascii.eqb c' LF); [done|].
    apply IH. simpl in *. lia.
Qed.

(** Joining the pieces with the separator gives the text back. *)
Lemma split_blank_go_join n : forall s cur,
  (String.length s <= n)%nat ->
  join_blank (split_blank_go cur s) = String.rev_app cur s.
Proof.
  induction n as [|n IH]; intros s cur Hn.
  - destruct s; [|simpl in Hn; lia]. simpl. apply sapp_nil_r.
  - destruct s as [|c [|c' s]].
    + simpl. apply sapp_nil_r.
    + simpl. apply sapp_nil_r.
    + rewrite split_blank_go_two.
      destruct (Ascii.eqb c LF && Ascii.eqb c' LF) eqn:E.
      * apply andb_true_iff in E as [->%Ascii.eqb_eq ->%Ascii.eqb_eq].
        pose proof (IH s "" ltac:(simpl in Hn; lia)) as Hs. simpl in Hs.
        pose proof (split_blank_go_nonempty (String.length s) s ""
                      ltac:(lia)) as Hne.
        rewrite rev_app_rev. unfold join_blank at 1. f_equal.
        destruct (split_blank_go "" s) as [|p ps]; [done|].
        simpl in *. by rewrite Hs.
      * apply (IH (String c' s) (String c cur)). simpl in *. lia.
Qed.

Lemma split_blank_join text : join_blank (split_blank text) = text.
Proof. by apply (split_blank_go_join (String.length text)). Qed.


Lemma nonspace_tail_text ps : nonspace (tail_text ps) = nonspace (join ps).
Proof.
  induction ps as [|p ps IH]; [done|].
  simpl. rewrite !nonspace_app, IH. done.
Qed.

Lemma nonspace_join_blank ps : nonspace (join_blank ps) = nonspace (join ps).
Proof.
  destruct ps as [|p ps]; [done|].
  simpl. by rewrite !nonspace_app, nonspace_tail_text.
Qed.

Lemma nonspace_kept ps : nonspace (join (kept ps)) = nonspace (join ps).
Proof.
  unfold kept. induction ps as [|p ps IH]; [done|]. simpl.
  destruct (truthy (strip p)) eqn:E; simpl.
  - by rewrite !nonspace_app, nonspace_strip, IH.
  - rewrite nonspace_app, IH, (strip_empty_blank p E). done.
Qed.

Lemma kept_cons p ps :
  kept (p :: ps) = if truthy (strip p) then strip p :: kept ps else kept ps.
Proof. unfold kept. simpl. by destruct (truthy (strip p)). Qed.



End strings.

Section chunker_facts.
Import PyStr Chunker.
Variable wrap : string -> Z -> list string.
Variable max_chars : Z.

Lemma paragraphs_kept text : paragraphs text = kept (split_blank text).
Proof. reflexivity. Qed.

(** The loop when no paragraph is longer than the limit: the paragraphs
    themselves. *)
Lemma chunk_loop_short ps : forall acc,
  Forall (fun p => (len p <= max_chars)%Z) ps ->
  foldl (chunk_step wrap max_chars) acc ps = acc ++ ps.
Proof.
  induction ps as [|p ps IH]; intros acc Hps; simpl.
  - by rewrite app_nil_r.
  - apply Forall_cons in Hps as [Hp Hps]. unfold chunk_step at 2.
    apply Z.leb_le in Hp. rewrite Hp, IH by done. by rewrite <- app_assoc.
Qed.


Lemma chunk_nonempty text : chunk wrap max_chars text <> [].
Proof. unfold chunk. by destruct (foldl _ _ _). Qed.



End chunker_facts.






Example chunk_two_paragraphs :
  Chunker.chunk (fun p _ => [p]) 800 (" Alpha" +:+ blank_line +:+ "Beta ")
  = ["Alpha"; "Beta"].
Proof. vm_compute. reflexivity. Qed.

Example chunk_blank_text :
  Chunker.chunk (fun p _ => [p]) 800 "  " = ["  "].
Proof. vm_compute. reflexivity. Qed.

(* ===================================================================== *)
(** ** Further properties of the ledger *)
(* ===================================================================== *)

(** *** Normalization of names ([_key]) *)

Section normalization.
Import PyStr Chunker.
Implicit Types (s t : string) (c : ascii).

Lemma lower_char_idem c : lower_char (lower_char c) = lower_char c.
Proof. destruct c as [[] [] [] [] [] [] [] []]; reflexivity. Qed.

Lemma isspace_lower_char c : isspace (lower_char c) = isspace c.
Proof. destruct c as [[] [] [] [] [] [] [] []]; reflexivity. Qed.

Lemma lower_idem s : lower (lower s) = lower s.
Proof.
  induction s as [|c s IH]; [done|]. simpl. by rewrite lower_char_idem, IH.
Qed.

Lemma lower_lstrip s : lstrip (lower s) = lower (lstrip s).
Proof.
  induction s as [|c s IH]; [done|]. simpl. rewrite isspace_lower_char.
  by destruct (isspace c).
Qed.

Lemma lower_rstrip s : rstrip (lower s) = lower (rstrip s).
Proof.
  induction s as [|c s IH]; [done|]. simpl. rewrite IH, isspace_lower_char.
  destruct (rstrip s); simpl; [by destruct (isspace c) | done].
Qed.

Lemma lower_strip s : strip (lower s) = lower (strip s).
Proof. unfold strip. by rewrite lower_lstrip, lower_rstrip. Qed.

(** A string that starts with white space is changed by [lstrip]. *)
Lemma lstrip_length s : (String.length (lstrip s) <= String.length s)%nat.
Proof.
  induction s as [|c s IH]; [done|]. simpl.
  destruct (isspace c); simpl; lia.
Qed.

Lemma lstrip_fixed c s : lstrip (String c s) = String c s -> isspace c = false.
Proof.
  simpl. destruct (isspace c); [|done]. intros H.
  pose proof (lstrip_length s) as Hl. rewrite H in Hl. simpl in Hl. lia.
Qed.

Lemma lstrip_idem s : lstrip (lstrip s) = lstrip s.
Proof.
  induction s as [|c s IH]; [done|]. simpl.
  destruct (isspace c) eqn:E; [done|]. simpl. by rewrite E.
Qed.

Lemma rstrip_idem s : rstrip (rstrip s) = rstrip s.
Proof.
  induction s as [|c s IH]; [done|]. simpl.
  destruct (rstrip s) as [|a r] eqn:Er.
  - destruct (isspace c) eqn:E; [done|]. simpl. by rewrite E.
  - simpl. simpl in IH. by rewrite IH.
Qed.

(** [rstrip] leaves the front of a string without leading white space. *)
Lemma lstrip_rstrip s : lstrip s = s -> lstrip (rstrip s) = rstrip s.
Proof.
  destruct s as [|c s]; [done|]. intros H. apply lstrip_fixed in H.
  simpl. destruct (rstrip s); rewrite ?H; simpl; by rewrite H.
Qed.

Lemma strip_idem s : strip (strip s) = strip s.
Proof.
  unfold strip. rewrite (lstrip_rstrip (lstrip s)) by apply lstrip_idem.
  apply rstrip_idem.
Qed.

Lemma lstrip_blank s : blank s -> lstrip s = "".
Proof.
  unfold blank. induction s as [|c s IH]; [done|]. simpl.
  destruct (isspace c); [exact IH | done].
Qed.

Lemma rstrip_blank s : blank s -> rstrip s = "".
Proof.
  unfold blank. induction s as [|c s IH]; [done|]. simpl.
  destruct (isspace c) eqn:E; [|done]. intros H. by rewrite (IH H).
Qed.

Lemma strip_blank s : blank s -> strip s = "".
Proof. intros H. unfold strip. by rewrite (lstrip_blank s H). Qed.

Lemma lstrip_app_blank s t : blank s -> lstrip (s +:+ t) = lstrip t.
Proof.
  unfold blank. induction s as [|c s IH]; [done|].
  rewrite sapp_cons. simpl. destruct (isspace c); [exact IH | done].
Qed.

Lemma rstrip_app_blank s t : blank t -> rstrip (s +:+ t) = rstrip s.
Proof.
  intros Ht. induction s as [|c s IH].
  - rewrite sapp_nil_l. by apply rstrip_blank.
  - rewrite sapp_cons. simpl. by rewrite IH.
Qed.

Lemma strip_app_blank_r s t : blank t -> strip (s +:+ t) = strip s.
Proof.
  intros Ht. unfold strip. induction s as [|c s IH].
  - rewrite sapp_nil_l. by rewrite (lstrip_blank t Ht).
  - rewrite sapp_cons. simpl. destruct (isspace c); [exact IH|].
    rewrite <- sapp_cons. by apply rstrip_app_blank.
Qed.

Lemma strip_pad a s b : blank a -> blank b -> strip (a +:+ s +:+ b) = strip s.
Proof.
  intros Ha Hb. unfold strip. rewrite lstrip_app_blank by done.
  by apply strip_app_blank_r.
Qed.

End normalization.

(** X1.  The key of a name is a normal form: normalizing a key changes
    nothing, and a name padded with white space on either side, or a name
    put in lower case, has the key of the name itself.  Two spellings that
    differ only in case and surrounding white space are therefore one
    entity for the ledger. *)
Theorem key_normalization :
  (forall n, _key (_key n) = _key n)
  /\ (forall a n b, Chunker.blank a -> Chunker.blank b ->
                    _key (a +:+ n +:+ b) = _key n)
  /\ (forall n, _key (PyStr.lower n) = _key n)
  /\ (forall n, _key (PyStr.strip n) = _key n).
Proof.
  unfold _key. repeat split.
  - intros n. by rewrite lower_strip, strip_idem, lower_idem.
  - intros a n b Ha Hb. by rewrite strip_pad.
  - intros n. by rewrite lower_strip, lower_idem.
  - intros n. by rewrite strip_idem.
Qed.

(** *** Registration and update: repeated and batched calls *)

Lemma register_known es : forall self,
  (forall e, e ∈ es -> normalized_name e ∈ OrderedDict.keys (_entities self)) ->
  register_entities self es = (self, []).
Proof.
  induction es as [|e es IH]; intros self Hk; [done|].
  rewrite register_entities_cons.
  assert (He : OrderedDict.contains (normalized_name e) (_entities self) = true).
  { apply od_contains_true, Hk, list_elem_of_here. }
  rewrite He. apply IH. intros e' He'. by apply Hk, list_elem_of_further.
Qed.

(** X2.  Candidates whose normalized names are all keys of the ledger
    already are all discarded: [register_entities] returns the empty list
    and leaves the ledger as it is.  In particular a second registration of
    the same candidates is without effect. *)
Theorem register_entities_known_is_noop
    (self : DocumentLedger) (entities : list WorldEntity) :
  (forall e, e ∈ entities ->
             normalized_name e ∈ OrderedDict.keys (_entities self)) ->
  register_entities self entities = (self, [])
  /\ forall earlier,
       register_entities (register_entities self earlier).1 earlier
       = ((register_entities self earlier).1, []).
Proof.
  intros Hk. split; [by apply register_known|].
  intros earlier. apply register_known. intros e He.
  apply register_keys. right. apply list_elem_of_fmap. by exists e.
Qed.

(** The hypothesis of X2 holds of a ledger that knows "Alpha" and of a
    candidate spelt " ALPHA ". *)
Lemma register_entities_known_is_noop_witness :
  let self := (register_entities new_ledger [make_entity "Alpha" None]).1 in
  let entities := [make_entity " ALPHA " (Some 3%Z)] in
  register_entities self entities = (self, [])
  /\ forall earlier,
       register_entities (register_entities self earlier).1 earlier
       = ((register_entities self earlier).1, []).
Proof.
  intros self entities.
  apply (register_entities_known_is_noop self entities).
  intros e He. apply list_elem_of_singleton in He as ->.
  vm_compute. apply list_elem_of_here.
Defined.

(** X3.  The three calls can be made batch by batch: registering a
    concatenation is registering its first part and then, on the ledger so
    obtained, its second part, the returned lists being concatenated;
    likewise for [update_with_stored]; and [resolve_relations] treats the
    relations one by one. *)
Theorem ledger_calls_in_batches
    (self : DocumentLedger) :
  (forall a b : list WorldEntity,
     register_entities self (a ++ b)
     = let r1 := register_entities self a in
       let r2 := register_entities r1.1 b in
       (r2.1, r1.2 ++ r2.2))
  /\ (forall a b : list WorldEntity,
        update_with_stored self (a ++ b)
        = update_with_stored (update_with_stored self a) b)
  /\ (forall a b : list Relation,
        resolve_relations self (a ++ b)
        = resolve_relations self a ++ resolve_relations self b).
Proof.
  repeat split.
  - intros a b. unfold register_entities at 1. rewrite foldl_app.
    fold (register_entities self a).
    destruct (register_entities self a) as [s1 u1] eqn:E. simpl.
    by rewrite register_loop_acc.
  - intros a b. unfold update_with_stored at 1. by rewrite foldl_app.
  - intros a b. by rewrite !resolve_relations_map, map_app.
Qed.

(** *** [update_with_stored] after [register_entities] *)

Lemma od_set_app_r {V} k (v : V) (a b : OrderedDict.t V) :
  k ∉ OrderedDict.keys a ->
  OrderedDict.set k v (a ++ b) = a ++ OrderedDict.set k v b.
Proof.
  induction a as [|[k' v'] a IH]; simpl; [done|].
  rewrite not_elem_of_cons. intros [Hne Hnin].
  destruct (String.eqb_spec k' k); [congruence|]. by rewrite IH.
Qed.

Lemma update_replaces stored : forall novel pre,
  map normalized_name stored = map normalized_name novel ->
  NoDup (OrderedDict.keys pre ++ map normalized_name novel) ->
  _entities (update_with_stored
               (mkLedger (pre ++ map (fun e => (normalized_name e, e)) novel))
               stored)
  = pre ++ map (fun e => (normalized_name e, e)) stored.
Proof.
  induction stored as [|s stored IH]; intros [|n novel] pre Hnames Hnd;
    try discriminate Hnames; [done|].
  simpl in Hnames. injection Hnames as Hs Hnames.
  rewrite update_with_stored_cons. simpl. simpl in Hnd. rewrite <- Hs in *.
  apply NoDup_app in Hnd as (Hpre & Hdisj & Hnov).
  rewrite od_set_app_r; cycle 1.
  { intros Hin. apply (Hdisj _ Hin). apply list_elem_of_here. }
  simpl. rewrite String.eqb_refl.
  replace (pre ++ (normalized_name s, s)
             :: map (fun e => (normalized_name e, e)) novel)
    with ((pre ++ [(normalized_name s, s)])
            ++ map (fun e => (normalized_name e, e)) novel)
    by (by rewrite <- app_assoc).
  rewrite IH; [by rewrite <- app_assoc | done |].
  unfold OrderedDict.keys. rewrite map_app. simpl. rewrite <- app_assoc. simpl.
  apply NoDup_app. split; [done|]. split; [|done].
  intros x Hx. apply Hdisj. exact Hx.
Qed.

(** The entries after registration and update with the stored copies. *)
Lemma update_after_register_entries
    (self : DocumentLedger) (entities stored : list WorldEntity) :
  ledger_inv self ->
  map name stored = map name (register_entities self entities).2 ->
  _entities (update_with_stored (register_entities self entities).1 stored)
  = _entities self ++ map (fun e => (normalized_name e, e)) stored.
Proof.
  intros Hinv Hnames.
  pose proof (register_inv entities self Hinv) as [Hnd _].
  rewrite register_entries in Hnd.
  unfold OrderedDict.keys in Hnd. rewrite map_app, map_map in Hnd. simpl in Hnd.
  destruct (register_entities self entities) as [self' unique] eqn:E.
  pose proof (register_entries entities self) as Hent. rewrite E in Hent.
  simpl in *. destruct self' as [d]. simpl in Hent. subst d.
  apply update_replaces; [|done].
  unfold normalized_name. rewrite <- !(map_map name _key). by rewrite Hnames.
Qed.

(** X4.  When the entities passed to [update_with_stored] are copies, name
    by name and in order, of those [register_entities] returned (what
    [save_entities] gives back), every record registered is replaced in
    place and no key is added: the ledger then holds the entries it had
    before the registration, followed by exactly the stored entities in
    registration order. *)
Theorem update_with_stored_replaces_in_place
    (self : DocumentLedger) (entities stored : list WorldEntity) :
  ledger_inv self ->
  map name stored = map name (register_entities self entities).2 ->
  _entities (update_with_stored (register_entities self entities).1 stored)
  = _entities self ++ map (fun e => (normalized_name e, e)) stored.
Proof. apply update_after_register_entries. Qed.

(** The hypotheses of X4 hold of the new ledger, two mentions of "Alpha"
    and the stored copy with identifier 42. *)
Lemma update_with_stored_replaces_in_place_witness :
  _entities (update_with_stored
               (register_entities new_ledger
                  [make_entity "Alpha" None; make_entity "alpha" None]).1
               [make_entity "Alpha" (Some 42%Z)])
  = _entities new_ledger
    ++ map (fun e => (normalized_name e, e)) [make_entity "Alpha" (Some 42%Z)].
Proof.
  apply (update_with_stored_replaces_in_place new_ledger
           [make_entity "Alpha" None; make_entity "alpha" None]
           [make_entity "Alpha" (Some 42%Z)]).
  - apply ledger_inv_new.
  - reflexivity.
Defined.

(** *** Resolution and identifiers *)

Lemma model_copy_update_same r :
  model_copy_update r (subject_entity_id r) (object_entity_id r) = r.
Proof. by destruct r. Qed.

Lemma find_none_all {A} (P : A -> bool) l :
  (forall x, x ∈ l -> P x = false) -> List.find P l = None.
Proof.
  induction l as [|x l IH]; intros H; [done|]. simpl.
  rewrite (H x) by apply list_elem_of_here.
  apply IH. intros y Hy. by apply H, list_elem_of_further.
Qed.

Lemma od_get_Some_value {V} k (v : V) d :
  OrderedDict.get k d = Some v -> v ∈ OrderedDict.values d.
Proof.
  intros H. apply od_get_Some_elem in H.
  unfold OrderedDict.values. apply list_elem_of_fmap. by exists (k, v).
Qed.

Lemma lookup_value self i n e :
  _lookup self i n = Some e -> e ∈ OrderedDict.values (_entities self).
Proof.
  destruct i as [i|]; simpl.
  - intros H. apply List.find_some in H as [H _]. by apply list_elem_of_In.
  - destruct n as [n|]; [|done]. destruct (PyStr.truthy n); [|done].
    apply od_get_Some_value.
Qed.

(** X5.  As long as no entity held by the ledger has an identifier (the
    state between [register_entities] and [update_with_stored]),
    [resolve_relations] returns its input unchanged: nothing is filled in
    and nothing is removed, whatever the relations carry. *)
Theorem resolve_before_identifiers_is_identity
    (self : DocumentLedger) (relations : list Relation) :
  (forall e, e ∈ OrderedDict.values (_entities self) -> id e = None) ->
  resolve_relations self relations = relations.
Proof.
  intros Hnone. rewrite resolve_relations_map.
  rewrite <- (map_id relations) at 2. apply map_ext. intros r.
  assert (Hid : forall i n, resolved_id self i n = i).
  { intros [i|] n; [apply resolved_id_Some|]. unfold resolved_id.
    destruct (_lookup self None n) as [e|] eqn:E; [|done].
    apply Hnone. by eapply lookup_value. }
  rewrite resolve_relation_eq, !Hid. apply model_copy_update_same.
Qed.

(** The hypothesis of X5 holds of the ledger right after "Alpha" was
    registered without identifier. *)
Lemma resolve_before_identifiers_is_identity_witness :
  resolve_relations
    (register_entities new_ledger [make_entity "Alpha" None]).1
    [make_relation (Some "Alpha") (Some "Beta")]
  = [make_relation (Some "Alpha") (Some "Beta")].
Proof.
  apply (resolve_before_identifiers_is_identity
           (register_entities new_ledger [make_entity "Alpha" None]).1
           [make_relation (Some "Alpha") (Some "Beta")]).
  intros e He. apply list_elem_of_singleton in He as ->. reflexivity.
Defined.

(** X6.  In a ledger whose entities carry pairwise distinct identifiers
    (entities without identifier aside), a search by identifier finds the
    entity that carries it: for every entity held with identifier [i],
    [_lookup] by [i] returns that entity, whatever name is passed along. *)
Theorem lookup_by_id_finds_holder
    (self : DocumentLedger) (e : WorldEntity) (i : Z) (n : option string) :
  NoDup (omap id (OrderedDict.values (_entities self))) ->
  e ∈ OrderedDict.values (_entities self) ->
  id e = Some i ->
  _lookup self (Some i) n = Some e.
Proof.
  simpl. generalize (OrderedDict.values (_entities self)). intros l.
  induction l as [|x l IH]; intros Hnd He Hid.
  - by apply elem_of_nil in He.
  - simpl. destruct (bool_decide_reflect (id x = Some i)) as [Hx|Hx].
    + apply elem_of_cons in He as [->|He]; [done|]. exfalso.
      simpl in Hnd. rewrite Hx in Hnd. apply NoDup_cons in Hnd as [Hnin _].
      apply Hnin. apply list_elem_of_omap. by exists e.
    + apply elem_of_cons in He as [->|He]; [congruence|].
      apply IH; [|done..]. simpl in Hnd.
      destruct (id x); [by apply NoDup_cons in Hnd as [_ ?] | done].
Qed.

(** The hypotheses of X6 hold of a ledger with "Alpha" stored as 42 and
    "Beta" stored as 43. *)
Lemma lookup_by_id_finds_holder_witness :
  _lookup (update_with_stored new_ledger
             [make_entity "Alpha" (Some 42%Z); make_entity "Beta" (Some 43%Z)])
          (Some 43%Z) None
  = Some (make_entity "Beta" (Some 43%Z)).
Proof.
  apply (lookup_by_id_finds_holder
           (update_with_stored new_ledger
              [make_entity "Alpha" (Some 42%Z); make_entity "Beta" (Some 43%Z)])
           (make_entity "Beta" (Some 43%Z)) 43 None).
  - vm_compute. repeat constructor; rewrite ?elem_of_cons, ?elem_of_nil;
      intuition discriminate.
  - vm_compute. apply list_elem_of_further, list_elem_of_here.
  - reflexivity.
Defined.

(* ===================================================================== *)
(** ** Properties of [_split_body] *)
(* ===================================================================== *)

Section split_body.
Import PyStr Chunker Extractor.
Implicit Types (s t body : string) (c : ascii).

(** [partition] cuts at the first occurrence of the separator. *)
Lemma partition_found c s :
  contains_char c s = true ->
  exists before after,
    partition c s = (before, String c "", after)
    /\ s = before +:+ String c "" +:+ after
    /\ contains_char c before = false.
Proof.
  induction s as [|a s IH]; [done|]. simpl.
  destruct (Ascii.eqb_spec a c) as [->|Hne]; simpl.
  - intros _. by exists "", s.
  - intros Hc. destruct (IH Hc) as (before & after & Hp & Hs & Hb).
    exists (String a before), after. rewrite Hp. repeat split.
    + rewrite sapp_cons. by rewrite <- Hs.
    + simpl. rewrite Hb. by destruct (Ascii.eqb_spec a c).
Qed.

Lemma partition_absent c s :
  contains_char c s = false -> partition c s = (s, "", "").
Proof.
  induction s as [|a s IH]; [done|]. simpl.
  destruct (Ascii.eqb a c); [done|]. simpl. intros Hc. by rewrite (IH Hc).
Qed.

Lemma contains_char_app c s t :
  contains_char c (s +:+ t) = contains_char c s || contains_char c t.
Proof.
  induction s as [|a s IH]; [done|]. rewrite sapp_cons. simpl.
  by rewrite IH, orb_assoc.
Qed.

(** A character that does not occur in a string does not occur in what
    [strip] leaves of it. *)
Lemma contains_char_strip c s :
  contains_char c s = false -> contains_char c (strip s) = false.
Proof.
  intros Hc. destruct (strip_layout s) as (lead & trail & _ & _ & Hs).
  rewrite Hs, !contains_char_app in Hc.
  apply orb_false_iff in Hc as [_ Hc]. by apply orb_false_iff in Hc as [Hc _].
Qed.

Lemma or_else_nonempty x : or_else x no_description <> "".
Proof. unfold or_else. by destruct x. Qed.

Lemma or_else_stripped x : strip (or_else (strip x) no_description)
                           = or_else (strip x) no_description.
Proof.
  unfold or_else. destruct (truthy (strip x)); [apply strip_idem | reflexivity].
Qed.

(** The three cases of [_split_body]. *)
Lemma split_body_cases body :
  (exists c before after,
     (c = "-"%char
      \/ (c = ":"%char /\ contains_char "-" body = false)
      \/ (c = " "%char /\ contains_char "-" body = false
          /\ contains_char ":" body = false))
     /\ body = before +:+ String c "" +:+ after
     /\ contains_char c before = false
     /\ _split_body body
        = (strip before, or_else (strip after) no_description))
  \/ (contains_char "-" body = false /\ contains_char ":" body = false
      /\ contains_char " " body = false
      /\ _split_body body = (strip body, no_description)).
Proof.
  unfold _split_body.
  destruct (contains_char "-" body) eqn:Eh.
  { left. destruct (partition_found _ _ Eh) as (b & a & Hp & Hs & Hb).
    exists "-"%char, b, a. rewrite Hp. auto. }
  destruct (contains_char ":" body) eqn:Ec.
  { left. destruct (partition_found _ _ Ec) as (b & a & Hp & Hs & Hb).
    exists ":"%char, b, a. rewrite Hp. auto 6. }
  unfold split_space_once.
  destruct (contains_char " " body) eqn:Es.
  - left. destruct (partition_found _ _ Es) as (b & a & Hp & Hs & Hb).
    exists " "%char, b, a. rewrite Hp. auto 7.
  - right. by rewrite (partition_absent _ _ Es).
Qed.

End split_body.

(** X7.  For every body, [_split_body] gives a description that is not
    empty, and a name and a description without white space at either end
    (stripping them again changes nothing). *)
Theorem split_body_well_formed (body : string) :
  (Extractor._split_body body).2 <> ""
  /\ PyStr.strip (Extractor._split_body body).1 = (Extractor._split_body body).1
  /\ PyStr.strip (Extractor._split_body body).2 = (Extractor._split_body body).2.
Proof.
  destruct (split_body_cases body)
    as [(c & b & a & _ & _ & _ & ->) | (_ & _ & _ & ->)]; simpl.
  - split; [apply or_else_nonempty|].
    split; [apply strip_idem | apply or_else_stripped].
  - split; [done|]. split; [apply strip_idem | reflexivity].
Qed.

(** X8.  The first hyphen of the body is the separator, even when a colon
    or a space comes before it; without a hyphen the first colon is; without
    both the first space is.  The body is then the text before the
    separator, the separator, and the text after it, the name is the text
    before, stripped, and the description is the text after, stripped, or
    the default text when that is empty.  A body with none of the three
    characters is the name, and the description is the default text. *)
Theorem split_body_separator (body : string) :
  (exists c before after,
     (c = "-"%char
      \/ (c = ":"%char /\ Extractor.contains_char "-" body = false)
      \/ (c = " "%char /\ Extractor.contains_char "-" body = false
          /\ Extractor.contains_char ":" body = false))
     /\ body = before +:+ String c "" +:+ after
     /\ Extractor.contains_char c before = false
     /\ Extractor._split_body body
        = (PyStr.strip before,
           Extractor.or_else (PyStr.strip after) Extractor.no_description))
  \/ (Extractor.contains_char "-" body = false
      /\ Extractor.contains_char ":" body = false
      /\ Extractor.contains_char " " body = false
      /\ Extractor._split_body body
         = (PyStr.strip body, Extractor.no_description)).
Proof. apply split_body_cases. Qed.

(** X9.  The name [_split_body] gives never contains a hyphen; it contains
    a colon only if the body contains a hyphen; and it contains a space
    only if the body contains a hyphen or a colon. *)
Theorem split_body_name_separators (body : string) :
  Extractor.contains_char "-" (Extractor._split_body body).1 = false
  /\ (Extractor.contains_char "-" body = false ->
      Extractor.contains_char ":" (Extractor._split_body body).1 = false)
  /\ (Extractor.contains_char "-" body = false ->
      Extractor.contains_char ":" body = false ->
      Extractor.contains_char " " (Extractor._split_body body).1 = false).
Proof.
  destruct (split_body_cases body)
    as [(c & b & a & Hc & Hbody & Hb & ->) | (Hh & Hc & Hs & ->)]; simpl.
  - assert (Hsub : forall x, Extractor.contains_char x body = false ->
                             Extractor.contains_char x (PyStr.strip b) = false).
    { intros x Hx. apply contains_char_strip.
      rewrite Hbody, contains_char_app in Hx.
      by apply orb_false_iff in Hx as [Hx _]. }
    destruct Hc as [-> | [[-> Hh] | (-> & Hh & Hcol)]].
    + split; [by apply contains_char_strip|].
      rewrite Hbody, !contains_char_app in *. simpl.
      rewrite orb_true_r. split; intros; discriminate.
    + split; [by apply Hsub|]. split; [intros _; by apply contains_char_strip|].
      intros _ Hcol. rewrite Hbody, !contains_char_app in Hcol. simpl in Hcol.
      rewrite orb_true_r in Hcol. discriminate.
    + split; [by apply Hsub|]. split; [intros _; by apply Hsub|].
      intros _ _. by apply contains_char_strip.
  - split; [by apply contains_char_strip|].
    split; intros; by apply contains_char_strip.
Qed.

Section split_body_name.
Import PyStr Chunker Extractor.

Lemma rstrip_length s : (String.length (rstrip s) <= String.length s)%nat.
Proof.
  induction s as [|c s IH]; [done|]. simpl.
  destruct (rstrip s); [destruct (isspace c)|]; simpl in *; lia.
Qed.

(** A stripped string does not start with white space. *)
Lemma strip_fixed_head c s :
  strip (String c s) = String c s -> isspace c = false.
Proof.
  unfold strip. simpl. destruct (isspace c); [|done]. intros H.
  pose proof (rstrip_length (lstrip s)) as H1.
  pose proof (lstrip_length s) as H2. rewrite H in H1. simpl in H1. lia.
Qed.

Lemma blank_head c s : blank (String c s) -> isspace c = true.
Proof. unfold blank. simpl. by destruct (isspace c). Qed.

(** Of a stripped text, a blank front part is empty. *)
Lemma blank_front_empty before rest :
  strip (before +:+ rest) = before +:+ rest -> blank before -> before = "".
Proof.
  destruct before as [|c b]; [done|]. rewrite sapp_cons.
  intros Hs Hb. apply strip_fixed_head in Hs. apply blank_head in Hb.
  congruence.
Qed.

End split_body_name.

(** X10.  When the body is stripped and not empty, as [_extract_from_chunk]
    passes it, the name [_split_body] gives is empty exactly when the body
    starts with a hyphen, or contains no hyphen and starts with a colon. *)
Theorem split_body_empty_name (body : string) :
  PyStr.strip body = body -> body <> "" ->
  (Extractor._split_body body).1 = ""
  <-> (exists rest, body = String "-" rest)
      \/ (Extractor.contains_char "-" body = false
          /\ exists rest, body = String ":" rest).
Proof.
  intros Hstrip Hne.
  destruct (split_body_cases body)
    as [(c & b & a & Hc & Hbody & Hb & Heq) | (Hh & Hcol & Hs & Heq)];
    rewrite Heq; simpl.
  - split.
    + intros Hname.
      assert (b = "") as ->.
      { apply (blank_front_empty b (String c "" +:+ a)).
        - by rewrite <- Hbody.
        - apply strip_empty_blank. by rewrite Hname. }
      rewrite sapp_nil_l, sapp_cons, sapp_nil_l in Hbody.
      destruct Hc as [-> | [[-> Hh] | (-> & _ & _)]].
      * left. by exists a.
      * right. split; [done | by exists a].
      * rewrite Hbody in Hstrip. by apply strip_fixed_head in Hstrip.
    + assert (Hfront : forall x rest, body = String x rest -> c = x -> b = "").
      { intros x rest Hx ->. destruct b as [|y b]; [done|].
        rewrite Hx, sapp_cons in Hbody. injection Hbody as -> _.
        simpl in Hb. by rewrite Ascii.eqb_refl in Hb. }
      intros [[rest Hr] | [Hh [rest Hr]]].
      * assert (c = "-"%char) as Hc'.
        { destruct Hc as [-> | [[_ Hh] | (_ & Hh & _)]]; [done|..];
            rewrite Hr in Hh; discriminate Hh. }
        by rewrite (Hfront _ _ Hr Hc').
      * assert (c = ":"%char) as Hc'.
        { destruct Hc as [-> | [[-> _] | (_ & _ & Hcol)]]; [|done|].
          - rewrite Hbody, contains_char_app in Hh.
            apply orb_false_iff in Hh as [_ Hh]. discriminate Hh.
          - rewrite Hr in Hcol. discriminate Hcol. }
        by rewrite (Hfront _ _ Hr Hc').
  - rewrite Hstrip. split; [done|].
    intros [[rest Hr] | [_ [rest Hr]]]; rewrite Hr in *; discriminate.
Qed.

(** The hypotheses of X10 hold of the body of the line
    "Character: - the unnamed". *)
Lemma split_body_empty_name_witness :
  (Extractor._split_body "- the unnamed").1 = ""
  <-> (exists rest, "- the unnamed" = String "-" rest)
      \/ (Extractor.contains_char "-" "- the unnamed" = false
          /\ exists rest, "- the unnamed" = String ":" rest).
Proof.
  apply (split_body_empty_name "- the unnamed"); [reflexivity | discriminate].
Defined.

Example split_body_examples :
  Extractor._split_body "Aelar - Elf scout" = ("Aelar", "Elf scout")
  /\ Extractor._split_body "Aelar: well-known scout"
     = ("Aelar: well", "known scout")
  /\ Extractor._split_body "Aelar the scout" = ("Aelar", "the scout")
  /\ Extractor._split_body "Aelar" = ("Aelar", "No description provided.")
  /\ Extractor._split_body "Aelar -" = ("Aelar", "No description provided.").
Proof. vm_compute. repeat split; reflexivity. Qed.

(* ===================================================================== *)
(** ** Properties of [_parse_entity_type] *)
(* ===================================================================== *)

(** [EntityType(s)] of the [resonance] package succeeds exactly on the
    seven category names. *)
Lemma resonance_of_value_seven s :
  is_Some (Resonance.of_value s) <-> s ∈ seven_categories.
Proof.
  split.
  - intros [t Ht]. apply List.find_some in Ht as [_ Ht].
    apply String.eqb_eq in Ht as <-. unfold seven_categories.
    destruct t; simpl; in_list.
  - intros Hs. unfold seven_categories in Hs.
    repeat (apply elem_of_cons in Hs as [->|Hs]); try by eexists.
    by apply elem_of_nil in Hs.
Qed.

(** X11.  [_parse_entity_type] never fails and inverts [value]: the value of
    a member is parsed to that member.  A string that is the value of no
    member is parsed to [CHARACTER] when it is "npc" and to [CONCEPT]
    otherwise; the entry "organization" of the fallback dictionary is never
    reached, "organization" being a value. *)
Theorem parse_entity_type_total :
  (forall t, OpenRouter._parse_entity_type (Resonance.value t) = t)
  /\ (forall s, s ∉ seven_categories ->
        OpenRouter._parse_entity_type s
        = if String.eqb s "npc" then Resonance.CHARACTER
          else Resonance.CONCEPT)
  /\ (forall s, s ∈ seven_categories ->
        Resonance.value (OpenRouter._parse_entity_type s) = s).
Proof.
  pose proof resonance_of_value_seven as Hof.
  split; [by intros []|]. split.
  - intros s Hs. unfold OpenRouter._parse_entity_type.
    destruct (Resonance.of_value s) as [t|] eqn:E.
    { exfalso. apply Hs, Hof. by exists t. }
    change (OrderedDict.get s OpenRouter.fallback_map)
      with (if String.eqb "npc" s then Some Resonance.CHARACTER
            else if String.eqb "organization" s
                 then Some Resonance.ORGANIZATION else None).
    rewrite (String.eqb_sym "npc" s).
    destruct (String.eqb_spec s "npc") as [->|_]; [done|].
    destruct (String.eqb_spec "organization" s) as [<-|_]; [|done].
    exfalso. apply Hs. unfold seven_categories. in_list.
  - intros s Hs. apply Hof in Hs as [t Ht].
    unfold OpenRouter._parse_entity_type. rewrite Ht.
    apply List.find_some in Ht as [_ Ht]. by apply String.eqb_eq in Ht.
Qed.

(* ===================================================================== *)
(** ** Properties of the repository *)
(* ===================================================================== *)

Section io_facts.
Context {World : Type}.

(** A sequence of two calls succeeds when both do. *)
Lemma io_bind_Some {A B} (m : io World A) (f : A -> io World B) w b w' :
  (m ≫= f) w = Some (b, w') ->
  exists a w1, m w = Some (a, w1) /\ f a w1 = Some (b, w').
Proof.
  unfold mbind, io_bind. destruct (m w) as [[a w1]|]; [|done].
  intros H. by exists a, w1.
Qed.

Lemma io_ret_Some {A} (a b : A) (w w' : World) :
  (mret a : io World A) w = Some (b, w') -> b = a /\ w' = w.
Proof. unfold mret, io_ret. by intros [= -> ->]. Qed.

End io_facts.

Section repository_facts.
Context {World Path DateTime : Type}.
Variable insert_document : Repository.document_row DateTime -> io World Z.
Variable insert_chunk : Repository.chunk_row -> io World Z.
Variable insert_entity : Repository.entity_row -> io World Z.
Variable insert_relation : Repository.relation_row -> io World Z.
Variable json_dumps : gmap string (option string) -> string.
Variable path_str : Path -> string.

Lemma save_entities_loop_spec entities : forall acc w out w',
  Repository.save_entities_loop insert_entity json_dumps entities acc w
  = Some (out, w') ->
  exists new, out = acc ++ new
              /\ Forall2 (fun e s => exists k, s = entity_with_id e k)
                         entities new.
Proof.
  induction entities as [|e entities IH]; intros acc w out w' H.
  - apply io_ret_Some in H as [-> _]. exists []. by rewrite app_nil_r.
  - simpl in H. apply io_bind_Some in H as (k & w1 & _ & H).
    apply IH in H as (new & -> & Hnew).
    exists (entity_with_id e k :: new). rewrite <- app_assoc. split; [done|].
    apply Forall2_cons. split; [by exists k | done].
Qed.

Lemma save_relations_loop_spec relations : forall acc w out w',
  Repository.save_relations_loop insert_relation json_dumps relations acc w
  = Some (out, w') ->
  exists new, out = acc ++ new
              /\ Forall2 (fun r s => exists k, s = relation_with_id r k)
                         relations new.
Proof.
  induction relations as [|r relations IH]; intros acc w out w' H.
  - apply io_ret_Some in H as [-> _]. exists []. by rewrite app_nil_r.
  - simpl in H. apply io_bind_Some in H as (k & w1 & _ & H).
    apply IH in H as (new & -> & Hnew).
    exists (relation_with_id r k :: new). rewrite <- app_assoc. split; [done|].
    apply Forall2_cons. split; [by exists k | done].
Qed.

(** What [save_entities] returns. *)
Lemma save_entities_spec entities w stored w' :
  Repository.save_entities insert_entity json_dumps entities w
  = Some (stored, w') ->
  Forall2 (fun e s => exists k, s = entity_with_id e k) entities stored.
Proof.
  destruct entities as [|e entities].
  - intros H. apply io_ret_Some in H as [-> _]. apply Forall2_nil_2.
  - intros H. apply save_entities_loop_spec in H as (new & -> & Hnew). done.
Qed.

Lemma save_relations_spec relations w stored w' :
  Repository.save_relations insert_relation json_dumps relations w
  = Some (stored, w') ->
  Forall2 (fun r s => exists k, s = relation_with_id r k) relations stored.
Proof.
  destruct relations as [|r relations].
  - intros H. apply io_ret_Some in H as [-> _]. apply Forall2_nil_2.
  - intros H. apply save_relations_loop_spec in H as (new & -> & Hnew). done.
Qed.

Lemma stored_names entities stored :
  Forall2 (fun e s => exists k, s = entity_with_id e k) entities stored ->
  map name stored = map name entities
  /\ Forall (fun s => is_Some (id s)) stored.
Proof.
  induction 1 as [|e s entities stored [k ->] _ [IH1 IH2]].
  - split; [done | apply Forall_nil_2].
  - simpl. rewrite IH1. split; [done|]. apply Forall_cons. split; [|done].
    by exists k.
Qed.

Lemma save_chunks_loop_spec document_id texts : forall index acc w out w',
  Repository.save_chunks_loop insert_chunk json_dumps document_id index texts
    acc w = Some (out, w') ->
  exists new,
    out = acc ++ new
    /\ map ck_text new = texts
    /\ map chunk_index new
       = map (fun i => (index + Z.of_nat i)%Z) (seq 0 (length texts))
    /\ Forall (fun c => ck_document_id c = Some document_id
                        /\ is_Some (ck_id c) /\ ck_metadata c = ∅) new.
Proof.
  induction texts as [|t texts IH]; intros index acc w out w' H.
  - apply io_ret_Some in H as [-> _]. exists []. rewrite app_nil_r.
    repeat split; done.
  - simpl in H. apply io_bind_Some in H as (k & w1 & _ & H).
    apply IH in H as (new & -> & Htext & Hidx & Hall).
    eexists (_ :: new). rewrite <- app_assoc. split; [done|]. simpl.
    rewrite Htext, Hidx, Z.add_0_r. repeat split.
    + f_equal. rewrite <- seq_shift, map_map. apply map_ext. intros i. lia.
    + apply Forall_cons. split; [|done]. simpl. repeat split; by eauto.
Qed.

(** A sequence of inserts that succeeds returns one key per row. *)
Lemma insert_all_length {Row} (insert : Row -> io World Z) rows :
  forall w keys w',
  insert_all insert rows w = Some (keys, w') -> length keys = length rows.
Proof.
  induction rows as [|row rows IH]; intros w keys w' H.
  - by apply io_ret_Some in H as [-> _].
  - simpl in H. apply io_bind_Some in H as (k & w1 & _ & H).
    apply io_bind_Some in H as (ks & w2 & Hks & H).
    apply io_ret_Some in H as [-> _]. simpl. f_equal. by eapply IH.
Qed.

(** The loops of the repository are the sequence of their inserts. *)
Lemma save_entities_loop_inserts entities : forall acc w,
  Repository.save_entities_loop insert_entity json_dumps entities acc w
  = match insert_all insert_entity (map (entity_values json_dumps) entities) w
    with
    | Some (keys, w') => Some (acc ++ zip_with entity_with_id entities keys, w')
    | None => None
    end.
Proof.
  induction entities as [|e entities IH]; intros acc w; simpl.
  - unfold mret, io_ret. by rewrite app_nil_r.
  - unfold mbind, io_bind. fold (entity_values json_dumps e).
    destruct (insert_entity (entity_values json_dumps e) w) as [[k w1]|];
      [|done].
    rewrite IH.
    destruct (insert_all insert_entity
                (map (entity_values json_dumps) entities) w1) as [[ks w2]|];
      [|done].
    unfold mret, io_ret. simpl. by rewrite <- app_assoc.
Qed.

Lemma save_relations_loop_inserts relations : forall acc w,
  Repository.save_relations_loop insert_relation json_dumps relations acc w
  = match insert_all insert_relation
            (map (relation_values json_dumps) relations) w
    with
    | Some (keys, w') =>
        Some (acc ++ zip_with relation_with_id relations keys, w')
    | None => None
    end.
Proof.
  induction relations as [|r relations IH]; intros acc w; simpl.
  - unfold mret, io_ret. by rewrite app_nil_r.
  - unfold mbind, io_bind. fold (relation_values json_dumps r).
    destruct (insert_relation (relation_values json_dumps r) w) as [[k w1]|];
      [|done].
    rewrite IH.
    destruct (insert_all insert_relation
                (map (relation_values json_dumps) relations) w1)
      as [[ks w2]|]; [|done].
    unfold mret, io_ret. simpl. by rewrite <- app_assoc.
Qed.

Lemma save_entities_inserts entities w :
  Repository.save_entities insert_entity json_dumps entities w
  = (keys ← insert_all insert_entity (map (entity_values json_dumps) entities);
     mret (zip_with entity_with_id entities keys)) w.
Proof.
  destruct entities as [|e entities]; [done|].
  unfold Repository.save_entities. rewrite save_entities_loop_inserts.
  unfold mbind, io_bind.
  by destruct (insert_all insert_entity
                 (map (entity_values json_dumps) (e :: entities)) w)
    as [[ks w2]|].
Qed.

Lemma save_relations_inserts relations w :
  Repository.save_relations insert_relation json_dumps relations w
  = (keys ← insert_all insert_relation
              (map (relation_values json_dumps) relations);
     mret (zip_with relation_with_id relations keys)) w.
Proof.
  destruct relations as [|r relations]; [done|].
  unfold Repository.save_relations. rewrite save_relations_loop_inserts.
  unfold mbind, io_bind.
  by destruct (insert_all insert_relation
                 (map (relation_values json_dumps) (r :: relations)) w)
    as [[ks w2]|].
Qed.

(** A successful sequence of two calls, read backwards. *)
Lemma io_bind_ret_Some {A B} (m : io World A) (f : A -> B) w b w' :
  (a ← m; mret (f a)) w = Some (b, w') ->
  exists a, m w = Some (a, w') /\ b = f a.
Proof.
  intros H. apply io_bind_Some in H as (a & w1 & Hm & H).
  apply io_ret_Some in H as [-> ->]. by exists a.
Qed.

Lemma save_chunks_loop_inserts document_id texts : forall index acc w,
  Repository.save_chunks_loop insert_chunk json_dumps document_id index texts
    acc w
  = match insert_all insert_chunk
            (imap (fun i t =>
                     Repository.mkChunkRow document_id (index + Z.of_nat i) t
                       (json_dumps ∅)) texts) w
    with
    | Some (keys, w') =>
        Some (acc ++ imap (fun i tk =>
                             mkDocumentChunk (Some tk.2) (Some document_id)
                               (index + Z.of_nat i) tk.1 ∅) (zip texts keys),
              w')
    | None => None
    end.
Proof.
  induction texts as [|t texts IH]; intros index acc w; simpl.
  - unfold mret, io_ret. by rewrite app_nil_r.
  - unfold mbind, io_bind. rewrite Z.add_0_r.
    destruct (insert_chunk
                (Repository.mkChunkRow document_id index t (json_dumps ∅)) w)
      as [[k w1]|]; [|done].
    rewrite IH.
    rewrite (imap_ext
               (fun i t0 => Repository.mkChunkRow document_id
                              (index + 1 + Z.of_nat i) t0 (json_dumps ∅))
               ((fun i t0 => Repository.mkChunkRow document_id
                               (index + Z.of_nat i) t0 (json_dumps ∅)) ∘ S))
      by (intros i x _; simpl; f_equal; lia).
    destruct (insert_all insert_chunk _ w1) as [[ks w2]|]; [|done].
    unfold mret, io_ret. simpl. rewrite <- app_assoc, Z.add_0_r. simpl.
    match goal with
    | |- Some (_ ++ _ :: imap ?f ?l, _) = Some (_ ++ _ :: imap ?g _, _) =>
        rewrite (imap_ext f g l) by (intros i x _; simpl; f_equal; lia)
    end.
    done.
Qed.

End repository_facts.

(** In a list zipped with a list of the same length, an element sits next
    to the element of the other list at its position. *)
Lemma zip_with_pointwise {A B C} (f : A -> B -> C) (xs : list A) (ks : list B)
    (i : nat) (x : A) :
  length ks = length xs -> xs !! i = Some x ->
  exists k, ks !! i = Some k /\ zip_with f xs ks !! i = Some (f x k).
Proof.
  intros Hlen Hx.
  destruct (lookup_lt_is_Some_2 ks i) as [k Hk].
  { rewrite Hlen. by eapply lookup_lt_Some. }
  exists k. split; [done|]. by rewrite lookup_zip_with, Hx, Hk.
Qed.

(** X12.  [save_entities] and [save_relations] run one insert per element
    of their input, in the order of the input and with the values of the
    element, each insert in the world the one before it has left, and fail
    when one of the inserts fails.  When they succeed, they return the
    input in order, one stored copy per element: the copy at a position
    differs from the original in the identifier only, which is the primary
    key that the insert of that element returned.  So names are kept and
    every stored entity has an identifier.  On an empty list they return
    the empty list without touching the database.  This holds whatever the
    inserts do. *)
Theorem save_returns_copies_with_identifier
    {World : Type}
    (insert_entity : Repository.entity_row -> io World Z)
    (insert_relation : Repository.relation_row -> io World Z)
    (json_dumps : gmap string (option string) -> string) :
  (forall w,
     Repository.save_entities insert_entity json_dumps [] w = Some ([], w)
     /\ Repository.save_relations insert_relation json_dumps [] w
        = Some ([], w))
  /\ (forall entities w,
        Repository.save_entities insert_entity json_dumps entities w
        = (keys ← insert_all insert_entity
                    (map (entity_values json_dumps) entities);
           mret (zip_with entity_with_id entities keys)) w)
  /\ (forall relations w,
        Repository.save_relations insert_relation json_dumps relations w
        = (keys ← insert_all insert_relation
                    (map (relation_values json_dumps) relations);
           mret (zip_with relation_with_id relations keys)) w)
  /\ (forall entities w stored w',
        Repository.save_entities insert_entity json_dumps entities w
        = Some (stored, w') ->
        (exists keys,
           insert_all insert_entity (map (entity_values json_dumps) entities) w
           = Some (keys, w')
           /\ length keys = length entities
           /\ stored = zip_with entity_with_id entities keys
           /\ (forall i e, entities !! i = Some e ->
                 exists k, keys !! i = Some k
                           /\ stored !! i = Some (entity_with_id e k)))
        /\ Forall2 (fun e s => exists k, s = entity_with_id e k) entities stored
        /\ length stored = length entities
        /\ map name stored = map name entities
        /\ Forall (fun s => is_Some (id s)) stored)
  /\ (forall relations w stored w',
        Repository.save_relations insert_relation json_dumps relations w
        = Some (stored, w') ->
        (exists keys,
           insert_all insert_relation
             (map (relation_values json_dumps) relations) w
           = Some (keys, w')
           /\ length keys = length relations
           /\ stored = zip_with relation_with_id relations keys
           /\ (forall i r, relations !! i = Some r ->
                 exists k, keys !! i = Some k
                           /\ stored !! i = Some (relation_with_id r k)))
        /\ Forall2 (fun r s => exists k, s = relation_with_id r k)
                   relations stored).
Proof.
  split; [done|]. split; [apply save_entities_inserts|].
  split; [apply save_relations_inserts|]. split.
  - intros entities w stored w' H. split.
    + rewrite save_entities_inserts in H.
      apply io_bind_ret_Some in H as (keys & Hkeys & ->).
      pose proof (insert_all_length _ _ _ _ _ Hkeys) as Hlen.
      rewrite length_map in Hlen.
      exists keys. repeat split; try done.
      intros i e He. by apply zip_with_pointwise.
    + apply save_entities_spec in H.
      split; [done|]. split; [symmetry; by eapply Forall2_length|].
      by apply stored_names.
  - intros relations w stored w' H. split.
    + rewrite save_relations_inserts in H.
      apply io_bind_ret_Some in H as (keys & Hkeys & ->).
      pose proof (insert_all_length _ _ _ _ _ Hkeys) as Hlen.
      rewrite length_map in Hlen.
      exists keys. repeat split; try done.
      intros i r Hr. by apply zip_with_pointwise.
    + by eapply save_relations_spec.
Qed.

(** X13.  [save_document_with_chunks] inserts the document and then one
    chunk per text, in order, the chunk at position [i] with the index
    [i], the text and the primary key the insert of the document returned.
    When it succeeds, the stored document is the given one with that
    primary key as identifier, and there is one stored chunk per text, in
    order: the chunk at position [i] has the text at that position, the
    index [i], the identifier of the stored document and, as its own
    identifier, the primary key the insert of that chunk returned.  So the
    chunk texts are the given texts and the chunk indices count from 0. *)
Theorem save_document_with_chunks_indexes_from_zero
    {World Path DateTime : Type}
    (insert_document : Repository.document_row DateTime -> io World Z)
    (insert_chunk : Repository.chunk_row -> io World Z)
    (json_dumps : gmap string (option string) -> string)
    (path_str : Path -> string)
    (d : Document Path DateTime) (chunk_texts : list string)
    (w w' : World) (stored : DocumentWithChunks Path DateTime) :
  Repository.save_document_with_chunks insert_document insert_chunk json_dumps
    path_str d chunk_texts w = Some (stored, w') ->
  (exists k w1 keys,
     insert_document (document_values json_dumps path_str d) w = Some (k, w1)
     /\ insert_all insert_chunk (chunk_values json_dumps k chunk_texts) w1
        = Some (keys, w')
     /\ length keys = length chunk_texts
     /\ document stored = document_with_id d k
     /\ chunks stored = chunks_stored k chunk_texts keys
     /\ (forall i t, chunk_texts !! i = Some t ->
           exists key,
             keys !! i = Some key
             /\ chunks stored !! i
                = Some (mkDocumentChunk (Some key) (Some k) (Z.of_nat i) t ∅)))
  /\ map ck_text (chunks stored) = chunk_texts
  /\ map chunk_index (chunks stored)
     = map Z.of_nat (seq 0 (length chunk_texts))
  /\ Forall (fun c => ck_document_id c = doc_id (document stored)
                      /\ is_Some (ck_id c)) (chunks stored).
Proof.
  intros H. split.
  - unfold Repository.save_document_with_chunks in H.
    apply io_bind_Some in H as (k & w1 & Hdoc & H).
    apply io_bind_Some in H as (cs & w2 & Hloop & H).
    apply io_ret_Some in H as [-> ->]. simpl.
    rewrite save_chunks_loop_inserts in Hloop.
    change (imap _ chunk_texts) with (chunk_values json_dumps k chunk_texts)
      in Hloop.
    destruct (insert_all insert_chunk (chunk_values json_dumps k chunk_texts)
                w1) as [[keys w3]|] eqn:Hkeys; [|done].
    injection Hloop as <- <-.
    pose proof (insert_all_length _ _ _ _ _ Hkeys) as Hlen.
    unfold chunk_values in Hlen. rewrite length_imap in Hlen.
    exists k, w1, keys. repeat split; try done.
    intros i t Ht.
    destruct (zip_with_pointwise pair chunk_texts keys i t Hlen Ht)
      as (key & Hkey & Hzip).
    exists key. split; [done|].
    by rewrite list_lookup_imap, Hzip.
  - unfold Repository.save_document_with_chunks in H.
    apply io_bind_Some in H as (k & w1 & _ & H).
    apply io_bind_Some in H as (cs & w2 & Hloop & H).
    apply io_ret_Some in H as [-> _]. simpl.
    apply save_chunks_loop_spec in Hloop as (new & -> & Htext & Hidx & Hall).
    simpl. split; [done|]. split; [done|].
    eapply Forall_impl; [exact Hall|]. intros c (? & ? & _). done.
Qed.

(* ===================================================================== *)
(** ** Properties of [IngestDocumentUseCase.execute] *)
(* ===================================================================== *)

(** In the ledger built from the extracted entities and their stored
    copies, a stored entity is the record under its normalized name. *)
Lemma ingest_ledger_get entities stored s :
  map name stored = map name (register_entities new_ledger entities).2 ->
  s ∈ stored ->
  OrderedDict.get (normalized_name s)
    (_entities (update_with_stored
                  (register_entities new_ledger entities).1 stored))
  = Some s.
Proof.
  intros Hnames Hs.
  rewrite update_after_register_entries by (done || apply ledger_inv_new).
  simpl. apply od_elem_get.
  - unfold OrderedDict.keys. rewrite map_map. simpl.
    replace (map (fun e => normalized_name e) stored)
      with (map normalized_name (register_entities new_ledger entities).2).
    + apply register_novel_NoDup.
    + unfold normalized_name. rewrite <- !(map_map name _key).
      by rewrite Hnames.
  - apply list_elem_of_fmap. by exists s.
Qed.

Lemma ingest_resolved_against entities stored relations :
  map name stored = map name (register_entities new_ledger entities).2 ->
  resolved_against stored relations
    (resolve_relations
       (update_with_stored (register_entities new_ledger entities).1 stored)
       relations).
Proof.
  intros Hnames i r Hi. eexists.
  rewrite resolve_relations_lookup, Hi. split; [reflexivity|].
  split; [apply resolve_relation_frame|].
  rewrite resolve_relation_eq. simpl.
  split; intros n s Hnull Hn Hne Hs Hk; rewrite Hnull, Hn; unfold resolved_id;
    rewrite lookup_by_name by done; rewrite <- Hk;
    by rewrite (ingest_ledger_get _ _ _ Hnames Hs).
Qed.

Section use_case_facts.
Context {World Path DateTime Vector : Type}.
Variable read_text : Path -> io World string.
Variable stem : Path -> string.
Variable utcnow : io World DateTime.
Variable chunker_chunk : string -> io World (list string).
Variable repository_save_document_with_chunks :
  Document Path DateTime -> list string ->
  io World (DocumentWithChunks Path DateTime).
Variable repository_save_chunk_embeddings : list (Z * Vector) -> io World unit.
Variable repository_save_entities :
  list WorldEntity -> io World (list WorldEntity).
Variable repository_save_entity_embeddings : list (Z * Vector) -> io World unit.
Variable repository_save_relations :
  list Relation -> io World (list Relation).
Variable extractor_extract :
  Document Path DateTime -> list DocumentChunk ->
  io World (list WorldEntity * list Relation).
Variable embedding_embed : list string -> io World (list Vector).

(** The calls a successful [execute] has made, in order. *)
Lemma execute_steps path w stats w' :
  Ingest.execute read_text stem utcnow chunker_chunk
    repository_save_document_with_chunks repository_save_chunk_embeddings
    repository_save_entities repository_save_entity_embeddings
    repository_save_relations extractor_extract embedding_embed path w
  = Some (stats, w') ->
  exists text now chunk_texts stored entities relations stored_entities saved
         w1 w2 w3 w4 w5 w6 w7,
    read_text path w = Some (text, w1)
    /\ chunker_chunk text w2 = Some (chunk_texts, w3)
    /\ repository_save_document_with_chunks
         (mkDocument None path (stem path) text ∅ now) chunk_texts w3
       = Some (stored, w4)
    /\ extractor_extract (document stored) (chunks stored) w5
       = Some ((entities, relations), w6)
    /\ repository_save_entities (register_entities new_ledger entities).2 w6
       = Some (stored_entities, w7)
    /\ (exists w8,
          repository_save_relations
            (resolve_relations
               (update_with_stored (register_entities new_ledger entities).1
                  stored_entities) relations) w8
          = Some (saved, w'))
    /\ stats = Ingest.mkStats (length (chunks stored)) (length stored_entities)
                 (length relations).
Proof.
  unfold Ingest.execute. intros H.
  apply io_bind_Some in H as (text & w1 & Hread & H).
  apply io_bind_Some in H as (now & w2 & _ & H).
  apply io_bind_Some in H as (chunk_texts & w3 & Hchunk & H).
  apply io_bind_Some in H as (stored & w4 & Hdoc & H).
  apply io_bind_Some in H as (chunk_vectors & wa & _ & H).
  apply io_bind_Some in H as (? & w5 & _ & H).
  apply io_bind_Some in H as ([entities relations] & w6 & Hext & H).
  apply io_bind_Some in H as (stored_entities & w7 & Hent & H).
  apply io_bind_Some in H as (entity_vectors & wb & _ & H).
  apply io_bind_Some in H as (? & w8 & _ & H).
  apply io_bind_Some in H as (saved & w9 & Hrel & H).
  apply io_ret_Some in H as [-> ->]. simpl in *.
  exists text, now, chunk_texts, stored, entities, relations, stored_entities,
    saved, w1, w2, w3, w4, w5, w6, w7.
  repeat split; try done; [by exists w8|].
  by rewrite resolve_relations_map, length_map.
Qed.

(** All the calls a successful [execute] has made, in order, each in the
    world the call before it has left. *)
Lemma execute_trace path w stats w' :
  Ingest.execute read_text stem utcnow chunker_chunk
    repository_save_document_with_chunks repository_save_chunk_embeddings
    repository_save_entities repository_save_entity_embeddings
    repository_save_relations extractor_extract embedding_embed path w
  = Some (stats, w') ->
  exists text now chunk_texts stored chunk_vectors entities relations
         stored_entities entity_vectors saved w1 w2 w3 w4 w5 w6 w7 w8 w9 w10,
    read_text path w = Some (text, w1)
    /\ utcnow w1 = Some (now, w2)
    /\ chunker_chunk text w2 = Some (chunk_texts, w3)
    /\ repository_save_document_with_chunks
         (mkDocument None path (stem path) text ∅ now) chunk_texts w3
       = Some (stored, w4)
    /\ embedding_embed (map ck_text (chunks stored)) w4
       = Some (chunk_vectors, w5)
    /\ repository_save_chunk_embeddings
         (Ingest.payload ck_id (chunks stored) chunk_vectors) w5
       = Some (tt, w6)
    /\ extractor_extract (document stored) (chunks stored) w6
       = Some ((entities, relations), w7)
    /\ repository_save_entities (register_entities new_ledger entities).2 w7
       = Some (stored_entities, w8)
    /\ embedding_embed (map description stored_entities) w8
       = Some (entity_vectors, w9)
    /\ repository_save_entity_embeddings
         (Ingest.payload id stored_entities entity_vectors) w9
       = Some (tt, w10)
    /\ repository_save_relations
         (resolve_relations
            (update_with_stored (register_entities new_ledger entities).1
               stored_entities) relations) w10
       = Some (saved, w')
    /\ stats = Ingest.mkStats (length (chunks stored)) (length stored_entities)
                 (length relations).
Proof.
  unfold Ingest.execute. intros H.
  apply io_bind_Some in H as (text & w1 & Hread & H).
  apply io_bind_Some in H as (now & w2 & Hnow & H).
  apply io_bind_Some in H as (chunk_texts & w3 & Hchunk & H).
  apply io_bind_Some in H as (stored & w4 & Hdoc & H).
  apply io_bind_Some in H as (chunk_vectors & w5 & Hcv & H).
  apply io_bind_Some in H as ([] & w6 & Hce & H).
  apply io_bind_Some in H as ([entities relations] & w7 & Hext & H).
  apply io_bind_Some in H as (stored_entities & w8 & Hent & H).
  apply io_bind_Some in H as (entity_vectors & w9 & Hev & H).
  apply io_bind_Some in H as ([] & w10 & Hee & H).
  apply io_bind_Some in H as (saved & w11 & Hrel & H).
  apply io_ret_Some in H as [-> ->]. simpl in *.
  exists text, now, chunk_texts, stored, chunk_vectors, entities, relations,
    stored_entities, entity_vectors, saved, w1, w2, w3, w4, w5, w6, w7, w8, w9,
    w10.
  repeat split; try done.
  by rewrite resolve_relations_map, length_map.
Qed.

(** X14.  Whatever the collaborators are, a successful [execute] has
    registered the entities the extractor returned, passed the novel ones
    to [save_entities], and passed to [save_relations] the extracted
    relations resolved in the ledger updated with what [save_entities]
    returned.  It reports the number of stored entities and the number of
    extracted relations (none is dropped).  If the repository returned the
    novel entities name by name, every end point without identifier whose
    non-empty name has the normalized name of a stored entity was saved
    with the identifier of that entity, and nothing else of a relation
    was changed. *)
Theorem execute_resolves_against_stored
    (path : Path) (w w' : World) (stats : Ingest.stats) :
  Ingest.execute read_text stem utcnow chunker_chunk
    repository_save_document_with_chunks repository_save_chunk_embeddings
    repository_save_entities repository_save_entity_embeddings
    repository_save_relations extractor_extract embedding_embed path w
  = Some (stats, w') ->
  exists d cs entities relations stored_entities resolved saved w1 w2 w3 w4 w5,
    extractor_extract d cs w1 = Some ((entities, relations), w2)
    /\ repository_save_entities (register_entities new_ledger entities).2 w2
       = Some (stored_entities, w3)
    /\ repository_save_relations resolved w4 = Some (saved, w5)
    /\ w5 = w'
    /\ resolved
       = resolve_relations
           (update_with_stored (register_entities new_ledger entities).1
              stored_entities) relations
    /\ Ingest.st_entities stats = length stored_entities
    /\ Ingest.st_relations stats = length relations
    /\ (map name stored_entities
        = map name (register_entities new_ledger entities).2 ->
        resolved_against stored_entities relations resolved).
Proof.
  intros H. apply execute_steps in H
    as (text & now & chunk_texts & stored & entities & relations
        & stored_entities & saved & w1 & w2 & w3 & w4 & w5 & w6 & w7
        & _ & _ & _ & Hext & Hent & [w8 Hrel] & ->).
  exists (document stored), (chunks stored), entities, relations,
    stored_entities,
    (resolve_relations
       (update_with_stored (register_entities new_ledger entities).1
          stored_entities) relations),
    saved, w5, w6, w7, w8, w'.
  repeat split; try done. apply ingest_resolved_against.
Qed.

End use_case_facts.

(** A payload is empty only if there is no element or no vector, when
    every element has an identifier. *)
Lemma payload_nil {A Vector : Type} (get_id : A -> option Z) (xs : list A)
    (vectors : list Vector) :
  Forall (fun x => is_Some (get_id x)) xs ->
  Ingest.payload get_id xs vectors = [] ->
  xs = [] \/ vectors = [].
Proof.
  destruct xs as [|x xs]; [by left|]. destruct vectors as [|v vs]; [by right|].
  intros Hall. apply Forall_cons in Hall as [[i Hi] _].
  unfold Ingest.payload. simpl. by rewrite Hi.
Qed.

(** The embedding savers succeed on the empty payload only. *)
Lemma save_chunk_embeddings_Some {World Vector : Type}
    (vectors : list (Z * Vector)) (w w' : World) (u : unit) :
  Repository.save_chunk_embeddings vectors w = Some (u, w') ->
  vectors = [] /\ w' = w.
Proof. destruct vectors; [|done]. by intros [= _ ->]. Qed.


Section use_case_sql.
Context {World Path DateTime Vector : Type}.
Variable read_text : Path -> io World string.
Variable stem : Path -> string.
Variable utcnow : io World DateTime.
Variable chunker_chunk : string -> io World (list string).
Variable extractor_extract :
  Document Path DateTime -> list DocumentChunk ->
  io World (list WorldEntity * list Relation).
Variable embedding_embed : list string -> io World (list Vector).
Variable insert_document : Repository.document_row DateTime -> io World Z.
Variable insert_chunk : Repository.chunk_row -> io World Z.
Variable insert_entity : Repository.entity_row -> io World Z.
Variable insert_relation : Repository.relation_row -> io World Z.
Variable json_dumps : gmap string (option string) -> string.
Variable path_str : Path -> string.

(** With the SQLAlchemy repository a successful [execute] has embedded the
    texts the chunker returned, and there was no text or no vector. *)
Lemma execute_sql_chunk_payload path w stats w' :
  Ingest.execute read_text stem utcnow chunker_chunk
    (Repository.save_document_with_chunks insert_document insert_chunk
       json_dumps path_str)
    Repository.save_chunk_embeddings
    (Repository.save_entities insert_entity json_dumps)
    Repository.save_entity_embeddings
    (Repository.save_relations insert_relation json_dumps)
    extractor_extract embedding_embed path w
  = Some (stats, w') ->
  exists text chunk_texts chunk_vectors w1 w2 w3 w4,
    chunker_chunk text w1 = Some (chunk_texts, w2)
    /\ embedding_embed chunk_texts w3 = Some (chunk_vectors, w4)
    /\ (chunk_texts = [] \/ chunk_vectors = []).
Proof.
  intros H. apply execute_trace in H
    as (text & now & chunk_texts & stored & chunk_vectors & entities
        & relations & stored_entities & entity_vectors & saved
        & w1 & w2 & w3 & w4 & w5 & w6 & w7 & w8 & w9 & w10
        & _ & _ & Hchunk & Hdoc & Hcv & Hce & _).
  unfold Repository.save_document_with_chunks in Hdoc.
  apply io_bind_Some in Hdoc as (k & wa & _ & Hdoc).
  apply io_bind_Some in Hdoc as (cs & wb & Hloop & Hdoc).
  apply io_ret_Some in Hdoc as [-> _]. simpl in *.
  apply save_chunks_loop_spec in Hloop as (new & -> & Htext & _ & Hall).
  simpl in *. rewrite Htext in Hcv.
  apply save_chunk_embeddings_Some in Hce as [Hce _].
  exists text, chunk_texts, chunk_vectors, w2, w3, w4, w5.
  split; [done|]. split; [done|].
  apply payload_nil in Hce.
  - destruct Hce as [-> | ->]; [left | by right].
    by destruct chunk_texts.
  - eapply Forall_impl; [exact Hall|]. by intros c (_ & ? & _).
Qed.


(** X21.  With the SQLAlchemy repository, a chunker that never returns
    the empty list (as [ParagraphChunker.chunk]) and an embedding service
    that returns one vector per text (as [SimpleEmbeddingService.embed]),
    [execute] raises for every path and in every world: either a call
    before it raises, or [save_chunk_embeddings] is reached with a payload
    that is not empty and raises. *)
Theorem execute_with_sql_repository_raises (path : Path) (w : World) :
  (forall text w0 chunk_texts w1,
     chunker_chunk text w0 = Some (chunk_texts, w1) -> chunk_texts <> []) ->
  (forall texts w0 vectors w1,
     embedding_embed texts w0 = Some (vectors, w1) ->
     length vectors = length texts) ->
  Ingest.execute read_text stem utcnow chunker_chunk
    (Repository.save_document_with_chunks insert_document insert_chunk
       json_dumps path_str)
    Repository.save_chunk_embeddings
    (Repository.save_entities insert_entity json_dumps)
    Repository.save_entity_embeddings
    (Repository.save_relations insert_relation json_dumps)
    extractor_extract embedding_embed path w
  = None.
Proof.
  intros Hchunker Hembed.
  destruct (Ingest.execute _ _ _ _ _ _ _ _ _ _ _ path w) as [[stats w']|] eqn:H;
    [|done].
  apply execute_sql_chunk_payload in H
    as (text & chunk_texts & chunk_vectors & w1 & w2 & w3 & w4
        & Hchunk & Hcv & Hnil).
  apply Hchunker in Hchunk. apply Hembed in Hcv.
  destruct Hnil as [-> | ->]; [done|]. by destruct chunk_texts.
Qed.

End use_case_sql.

(** The hypothesis of X13 holds of the counter engine, a document with two
    chunk texts and the first key 1: the document gets the key 1 and the
    chunks the keys 2 and 3. *)
Lemma save_document_with_chunks_indexes_from_zero_witness :
  let d := mkDocument None "story.md" "story" "Alpha paragraph" ∅ 0%Z in
  let chunk_texts := ["Alpha paragraph"; "Beta paragraph"] in
  let stored :=
    mkDocumentWithChunks (document_with_id d 1)
      [mkDocumentChunk (Some 2%Z) (Some 1%Z) 0 "Alpha paragraph" ∅;
       mkDocumentChunk (Some 3%Z) (Some 1%Z) 1 "Beta paragraph" ∅] in
  (exists k w1 keys,
     Sample.insert (document_values Sample.json_dumps (fun p => p) d) 1%Z
     = Some (k, w1)
     /\ insert_all Sample.insert
          (chunk_values Sample.json_dumps k chunk_texts) w1
        = Some (keys, 4%Z)
     /\ length keys = length chunk_texts
     /\ document stored = document_with_id d k
     /\ chunks stored = chunks_stored k chunk_texts keys
     /\ (forall i t, chunk_texts !! i = Some t ->
           exists key,
             keys !! i = Some key
             /\ chunks stored !! i
                = Some (mkDocumentChunk (Some key) (Some k) (Z.of_nat i) t ∅)))
  /\ map ck_text (chunks stored) = chunk_texts
  /\ map chunk_index (chunks stored) = map Z.of_nat (seq 0 (length chunk_texts))
  /\ Forall (fun c => ck_document_id c = doc_id (document stored)
                      /\ is_Some (ck_id c)) (chunks stored).
Proof.
  intros d chunk_texts stored.
  apply (save_document_with_chunks_indexes_from_zero
           Sample.insert Sample.insert Sample.json_dumps (fun p => p) d
           chunk_texts 1%Z 4%Z stored).
  reflexivity.
Defined.

(** The hypothesis of X14 holds of the sample collaborators: the run starts
    with the next key 1, stores one document, one chunk, two entities and
    two relations, and ends with the next key 7. *)
Lemma execute_resolves_against_stored_witness :
  let save_entities := Repository.save_entities Sample.insert Sample.json_dumps in
  let save_relations :=
    Repository.save_relations Sample.insert Sample.json_dumps in
  exists d cs entities relations stored_entities resolved saved w1 w2 w3 w4 w5,
    Sample.extract d cs w1 = Some ((entities, relations), w2)
    /\ save_entities (register_entities new_ledger entities).2 w2
       = Some (stored_entities, w3)
    /\ save_relations resolved w4 = Some (saved, w5)
    /\ w5 = 7%Z
    /\ resolved
       = resolve_relations
           (update_with_stored (register_entities new_ledger entities).1
              stored_entities) relations
    /\ Ingest.st_entities (Ingest.mkStats 1 2 2) = length stored_entities
    /\ Ingest.st_relations (Ingest.mkStats 1 2 2) = length relations
    /\ (map name stored_entities
        = map name (register_entities new_ledger entities).2 ->
        resolved_against stored_entities relations resolved).
Proof.
  intros save_entities save_relations.
  apply (execute_resolves_against_stored
           Sample.read_text (fun p => p) Sample.utcnow Sample.chunk
           (Repository.save_document_with_chunks Sample.insert Sample.insert
              Sample.json_dumps (fun p => p))
           Sample.save_embeddings save_entities Sample.save_embeddings
           save_relations Sample.extract Sample.embed
           "story.md" 1%Z 7%Z (Ingest.mkStats 1 2 2)).
  vm_compute. reflexivity.
Defined.


(** The hypotheses of X21 hold of the sample chunker and of the sample
    embedding service, which returns one vector per text: the run of the
    sample collaborators with the SQLAlchemy repository raises. *)
Lemma execute_with_sql_repository_raises_witness :
  Ingest.execute Sample.read_text (fun p => p) Sample.utcnow Sample.chunk
    (Repository.save_document_with_chunks Sample.insert Sample.insert
       Sample.json_dumps (fun p => p))
    Repository.save_chunk_embeddings
    (Repository.save_entities Sample.insert Sample.json_dumps)
    Repository.save_entity_embeddings
    (Repository.save_relations Sample.insert Sample.json_dumps)
    Sample.extract Sample.embed "story.md" 1%Z
  = None.
Proof.
  apply (execute_with_sql_repository_raises
           Sample.read_text (fun p => p) Sample.utcnow Sample.chunk
           Sample.extract Sample.embed Sample.insert Sample.insert
           Sample.insert Sample.insert Sample.json_dumps (fun p => p)
           "story.md" 1%Z).
  - intros text w0 chunk_texts w1 H. injection H as <- _.
    apply chunk_nonempty.
  - intros texts w0 vectors w1 H. injection H as <- _.
    apply length_map.
Defined.

Example execute_sample_run :
  Ingest.execute Sample.read_text (fun p => p) Sample.utcnow Sample.chunk
    (Repository.save_document_with_chunks Sample.insert Sample.insert
       Sample.json_dumps (fun p => p))
    Sample.save_embeddings
    (Repository.save_entities Sample.insert Sample.json_dumps)
    Sample.save_embeddings
    (Repository.save_relations Sample.insert Sample.json_dumps)
    Sample.extract Sample.embed "story.md" 1%Z
  = Some (Ingest.mkStats 1 2 2, 7%Z).
Proof. vm_compute. reflexivity. Qed.

(* ===================================================================== *)
(** ** Further properties of the chunker *)
(* ===================================================================== *)

Section chunker_more.
Import PyStr Chunker.
Variable wrap : string -> Z -> list string.
Variable max_chars : Z.

Lemma sapp_empty s t : s +:+ t = "" -> s = "" /\ t = "".
Proof. destruct s; [done|]. rewrite sapp_cons. discriminate. Qed.

Lemma join_blank_all ps : blank (join ps) -> Forall blank ps.
Proof.
  unfold blank. induction ps as [|p ps IH]; [intros _; apply Forall_nil_2|].
  simpl. rewrite nonspace_app. intros H. apply sapp_empty in H as [Hp Hps].
  apply Forall_cons. split; [done | by apply IH].
Qed.

Lemma kept_blank ps : Forall blank ps -> kept ps = [].
Proof.
  induction 1 as [|p ps Hp _ IH]; [done|].
  rewrite kept_cons, IH. by rewrite (strip_blank p Hp).
Qed.

Lemma paragraphs_blank text : blank text -> paragraphs text = [].
Proof.
  intros Hb. rewrite paragraphs_kept. apply kept_blank, join_blank_all.
  unfold blank. by rewrite <- nonspace_join_blank, split_blank_join.
Qed.

Lemma paragraphs_visible text : ~ blank text -> paragraphs text <> [].
Proof.
  intros Hb Hnil. apply Hb. unfold blank.
  rewrite <- (split_blank_join text), nonspace_join_blank, <- nonspace_kept.
  by rewrite <- paragraphs_kept, Hnil.
Qed.

Lemma kept_elem ps c :
  c ∈ kept ps -> c <> "" /\ strip c = c.
Proof.
  induction ps as [|p ps IH]; [intros H; by apply elem_of_nil in H|].
  rewrite kept_cons. destruct (truthy (strip p)) eqn:E; [|exact IH].
  rewrite elem_of_cons. intros [->|H]; [|by apply IH].
  split; [by destruct (strip p) | apply strip_idem].
Qed.

End chunker_more.

(** X16.  A text without any visible character, the empty text included,
    is returned as the only chunk, unchanged, whatever the limit and the
    wrapper are: the result is not the empty list, but its chunk may be
    the empty string. *)
Theorem chunk_of_blank_text
    (wrap : string -> Z -> list string) (max_chars : Z) (text : string) :
  Chunker.blank text ->
  Chunker.chunk wrap max_chars text = [text].
Proof.
  intros Hb. unfold Chunker.chunk. by rewrite (paragraphs_blank text Hb).
Qed.

(** The hypothesis of X16 holds of the empty text. *)
Lemma chunk_of_blank_text_witness :
  Chunker.chunk (fun p _ => [p]) 800 "" = [""].
Proof.
  apply (chunk_of_blank_text (fun p _ => [p]) 800 ""). reflexivity.
Defined.

(** X17.  For a text with a visible character none of whose paragraphs is
    longer than the limit, the wrapper is not used: the chunks are the
    paragraphs, and every chunk is non-empty, has no white space at either
    end, and is no longer than the limit. *)
Theorem chunk_of_short_paragraphs
    (wrap : string -> Z -> list string) (max_chars : Z) (text : string) :
  ~ Chunker.blank text ->
  Forall (fun p => (PyStr.len p <= max_chars)%Z) (Chunker.paragraphs text) ->
  Chunker.chunk wrap max_chars text = Chunker.paragraphs text
  /\ Forall (fun c => c <> "" /\ PyStr.strip c = c
                      /\ (PyStr.len c <= max_chars)%Z)
            (Chunker.chunk wrap max_chars text).
Proof.
  intros Hvis Hshort.
  assert (Heq : Chunker.chunk wrap max_chars text = Chunker.paragraphs text).
  { unfold Chunker.chunk. rewrite chunk_loop_short by done. simpl.
    pose proof (paragraphs_visible text Hvis).
    by destruct (Chunker.paragraphs text). }
  split; [done|]. rewrite Heq. apply Forall_forall. intros c Hc.
  rewrite Forall_forall in Hshort. specialize (Hshort c Hc).
  rewrite paragraphs_kept in Hc. apply kept_elem in Hc as [? ?]. done.
Qed.

(** The hypotheses of X17 hold of a text of two paragraphs. *)
Lemma chunk_of_short_paragraphs_witness :
  let text := " Alpha" +:+ blank_line +:+ "Beta " in
  Chunker.chunk (fun p _ => [p]) 800 text = Chunker.paragraphs text
  /\ Forall (fun c => c <> "" /\ PyStr.strip c = c /\ (PyStr.len c <= 800)%Z)
            (Chunker.chunk (fun p _ => [p]) 800 text).
Proof.
  intros text.
  apply (chunk_of_short_paragraphs (fun p _ => [p]) 800 text).
  - unfold Chunker.blank. vm_compute. discriminate.
  - vm_compute. repeat constructor; discriminate.
Defined.

(* ===================================================================== *)
(** ** Properties of [SimpleEmbeddingService.embed] *)
(* ===================================================================== *)

Section embedding_facts.
Context {Rng Float : Type}.
Variable sha256_int : string -> Z.
Variable rng_new : Z -> Rng.
Variable rng_random : Rng -> Float * Rng.
Variable dimension : Z.

Lemma draw_length n : forall rng, length (Embedding.draw rng_random n rng) = n.
Proof.
  induction n as [|n IH]; intros rng; [done|]. simpl.
  destruct (rng_random rng) as [x rng']. simpl. by rewrite IH.
Qed.

Lemma embed_loop_acc texts : forall acc,
  foldl (Embedding.embed_step sha256_int rng_new rng_random dimension) acc texts
  = acc ++ map (fun text =>
                  Embedding.draw rng_random (Z.to_nat dimension)
                    (rng_new (sha256_int text))) texts.
Proof.
  induction texts as [|t texts IH]; intros acc; simpl.
  - by rewrite app_nil_r.
  - rewrite IH. unfold Embedding.embed_step. by rewrite <- app_assoc.
Qed.

End embedding_facts.

(** X18.  [embed] returns one vector per text, in order, and every vector
    has [dimension] components (none when [dimension] is negative).  The
    vector of a text depends on the text only: a batch can be split
    anywhere, and a text that occurs at two positions gets the same vector
    at both.  This holds for every hash and every generator. *)
Theorem embed_one_vector_per_text
    {Rng Float : Type} (sha256_int : string -> Z) (rng_new : Z -> Rng)
    (rng_random : Rng -> Float * Rng) (dimension : Z) :
  let embed := Embedding.embed sha256_int rng_new rng_random dimension in
  (forall texts, length (embed texts) = length texts)
  /\ (forall texts,
        Forall (fun v => length v = Z.to_nat dimension) (embed texts))
  /\ (forall a b, embed (a ++ b) = embed a ++ embed b)
  /\ (forall texts i j t,
        texts !! i = Some t -> texts !! j = Some t ->
        embed texts !! i = embed texts !! j).
Proof.
  intros embed. subst embed. unfold Embedding.embed.
  split; [|split; [|split]].
  - intros texts. rewrite embed_loop_acc. simpl. apply length_map.
  - intros texts. rewrite embed_loop_acc. simpl. apply Forall_forall.
    intros v Hv. apply list_elem_of_fmap in Hv as (t & -> & _).
    apply draw_length.
  - intros a b. rewrite !embed_loop_acc. simpl. apply map_app.
  - intros texts i j t Hi Hj. rewrite embed_loop_acc. simpl.
    rewrite !(list_lookup_fmap _ texts). by rewrite Hi, Hj.
Qed.

(* ===================================================================== *)
(** ** What the ledger never does *)
(* ===================================================================== *)

Lemma update_keys es : forall self k,
  k ∈ OrderedDict.keys (_entities (update_with_stored self es))
  <-> k ∈ OrderedDict.keys (_entities self) \/ k ∈ map normalized_name es.
Proof.
  induction es as [|e es IH]; intros self k.
  - simpl. rewrite elem_of_nil. tauto.
  - rewrite update_with_stored_cons, IH. simpl.
    rewrite od_elem_of_keys_set, elem_of_cons. tauto.
Qed.

(** X19.  No call removes a key from the ledger: a key held before a call
    is held after it.  Registration adds exactly one entry per returned
    entity and leaves the record of every key held before as it was. *)
Theorem ledger_never_forgets :
  (forall self c k,
     k ∈ OrderedDict.keys (_entities self) ->
     k ∈ OrderedDict.keys (_entities (run_call self c).1))
  /\ (forall self entities,
        length (_entities (register_entities self entities).1)
        = (length (_entities self)
           + length (register_entities self entities).2)%nat)
  /\ (forall self entities k,
        k ∈ OrderedDict.keys (_entities self) ->
        OrderedDict.get k (_entities (register_entities self entities).1)
        = OrderedDict.get k (_entities self)).
Proof.
  split; [|split].
  - intros self [es|es|rs] k Hk; simpl.
    + pose proof (register_keys es self k) as H.
      destruct (register_entities self es). simpl in *. tauto.
    + apply update_keys. by left.
    + done.
  - intros self entities. rewrite register_entries, length_app, length_map.
    done.
  - intros self entities k Hk. rewrite register_get.
    destruct (OrderedDict.get k (_entities self)) eqn:E; [done|].
    by apply od_get_None in E.
Qed.

(** X20.  In a ledger that satisfies its invariant, an identifier that
    [resolve_relations] fills in comes from an entity of the ledger whose
    normalized name is the key of the name the relation carries: whenever
    an end point had no identifier and has one in the output, the relation
    names it, and an entity held by the ledger has that identifier and the
    normalized name of that name. *)
Theorem resolve_relations_identifier_origin
    (self : DocumentLedger) (relations : list Relation) (i : nat)
    (r r' : Relation) (k : Z) :
  ledger_inv self ->
  relations !! i = Some r ->
  resolve_relations self relations !! i = Some r' ->
  (subject_entity_id r = None -> subject_entity_id r' = Some k ->
   exists n e, subject_name r = Some n
               /\ e ∈ OrderedDict.values (_entities self)
               /\ normalized_name e = _key n /\ id e = Some k)
  /\ (object_entity_id r = None -> object_entity_id r' = Some k ->
      exists n e, object_name r = Some n
                  /\ e ∈ OrderedDict.values (_entities self)
                  /\ normalized_name e = _key n /\ id e = Some k).
Proof.
  intros [_ Hkeyed] Hi Hres.
  rewrite resolve_relations_lookup, Hi in Hres. injection Hres as <-.
  assert (Hfill : forall nm,
    resolved_id self None nm = Some k ->
    exists n e, nm = Some n /\ e ∈ OrderedDict.values (_entities self)
                /\ normalized_name e = _key n /\ id e = Some k).
  { intros nm. unfold resolved_id. simpl. destruct nm as [n|]; [|done].
    destruct (PyStr.truthy n); [|done].
    destruct (OrderedDict.get (_key n) (_entities self)) as [e|] eqn:E; [|done].
    intros Hid. exists n, e. split; [done|].
    split; [by eapply od_get_Some_value|]. split; [|done].
    apply od_get_Some_elem in E. unfold keyed in Hkeyed.
    rewrite Forall_forall in Hkeyed. symmetry. exact (Hkeyed _ E). }
  rewrite resolve_relation_eq. simpl.
  split; intros Hnull; rewrite Hnull; apply Hfill.
Qed.

(** The hypotheses of X20 hold of the ledger with "Alpha" stored as 42 and
    of a relation that names " ALPHA". *)
Lemma resolve_relations_identifier_origin_witness :
  let self := update_with_stored new_ledger [make_entity "Alpha" (Some 42%Z)] in
  let r := make_relation (Some " ALPHA") None in
  let r' := model_copy_update r (Some 42%Z) None in
  (subject_entity_id r = None -> subject_entity_id r' = Some 42%Z ->
   exists n e, subject_name r = Some n
               /\ e ∈ OrderedDict.values (_entities self)
               /\ normalized_name e = _key n /\ id e = Some 42%Z)
  /\ (object_entity_id r = None -> object_entity_id r' = Some 42%Z ->
      exists n e, object_name r = Some n
                  /\ e ∈ OrderedDict.values (_entities self)
                  /\ normalized_name e = _key n /\ id e = Some 42%Z).
Proof.
  intros self r r'.
  apply (resolve_relations_identifier_origin self [r] 0 r r' 42).
  - apply update_inv, ledger_inv_new.
  - reflexivity.
  - reflexivity.
Defined.
